(** * Portfolio aggregation and balance valuation

    A shallow embedding of [useFetchAsset.tsx]: the [useFetchAsset] hook,
    the account-to-portfolio normalizer [accountsToPortfolio], the query
    function of [portfolioApi.getAccounts] and the fiat selectors.

    JavaScript objects used as dictionaries are finite maps ([gmap]) keyed by
    strings; arrays are lists, [push] appends at the end.  The argument of
    [accountsToPortfolio] is kept as the list [Object.entries] enumerates,
    because the order of the entries decides the order of the [ids] arrays.

    [accountsToPortfolio] is embedded twice: on values, where a portfolio is
    a record, and on a heap, where every object and array of the source,
    the argument and the module's [initialState] among them, is a cell
    behind a reference and every assignment and [push] is a write to one
    cell.  The second embedding is what the statements on writes and
    sharing are about; it is related to the first by [read_portfolio]. *)

From Stdlib Require Import ZArith QArith Qabs Qround Lia Ascii.
From Stdlib Require Import DecimalString DecimalZ DecimalN.
From stdpp Require Import gmap strings list fin_maps.

Close Scope Q_scope.
Set Warnings "-clear-no-such-hyp".

(** ** Identifiers and raw account records *)

Abbreviation CAIP2 := string (only parsing).
Abbreviation CAIP10 := string (only parsing).
Abbreviation CAIP19 := string (only parsing).

(** [ChainTypes] of [@shapeshiftoss/types].  The [switch] of
    [accountsToPortfolio] has a [default] branch: [OtherChain] stands for
    every run-time value of [chain] that is neither of the two cases. *)
Inductive ChainTypes :=
  | Ethereum
  | Bitcoin
  | OtherChain (name : string).

Abbreviation NetworkTypes := string (only parsing).
Abbreviation ContractTypes := string (only parsing).

(** An entry of [chainSpecific.tokens] of an Ethereum account. *)
Record Token := {
  token_balance : string;
  token_contract : string;
  token_contractType : ContractTypes
}.

(** An entry of [chainSpecific.addresses] of a Bitcoin account; [balance]
    may be absent on the wire. *)
Record Address := {
  address_pubkey : string;
  address_balance : option string
}.

(** [account.chainSpecific], read structurally as the casts
    [account as chainAdapters.Account<...>] do: a field that the object does
    not carry is [undefined], here [None]. *)
Record ChainSpecific := {
  tokens : option (list Token);
  addresses : option (list Address)
}.

Record Account := {
  balance : string;
  pubkey : string;
  chain : ChainTypes;
  network : NetworkTypes;
  chainSpecific : ChainSpecific
}.

(** The argument object of [caip19.toCAIP19]. *)
Record ToCAIP19Args := {
  arg_chain : ChainTypes;
  arg_network : NetworkTypes;
  arg_contractType : option ContractTypes;
  arg_tokenId : option string
}.

(** ** The portfolio *)

Module PortfolioAccounts.
Record t := mk {
  byId : gmap string (list string);
  ids : list string
}.
End PortfolioAccounts.

Module PortfolioBalances.
Record t := mk {
  byId : gmap string string;
  ids : list string
}.
End PortfolioBalances.

Record Portfolio := {
  accounts : PortfolioAccounts.t;
  balances : PortfolioBalances.t
}.

Definition initialState : Portfolio :=
  {| accounts := PortfolioAccounts.mk ∅ [];
     balances := PortfolioBalances.mk ∅ [] |}.

(** The reducers of the [portfolio] slice. *)
Definition clearPortfolio (_state : Portfolio) : Portfolio := initialState.
Definition setPortfolio (_state payload : Portfolio) : Portfolio := payload.

(** [AccountsToPortfolioArgs], as [Object.entries] lists it.  The keys of an
    object are pairwise distinct: [wf_args]. *)
Abbreviation AccountsToPortfolioArgs := (list (string * Account)) (only parsing).

Definition wf_args (args : AccountsToPortfolioArgs) : Prop := NoDup (args.*1).

(** ** String helpers *)

(** [String.prototype.toLowerCase] on the ASCII range, the alphabet of CAIP
    identifiers. *)
Definition lower_ascii (c : ascii) : ascii :=
  let n := nat_of_ascii c in
  if (65 <=? n) && (n <=? 90) then ascii_of_nat (n + 32) else c.

Fixpoint toLowerCase (s : string) : string :=
  match s with
  | EmptyString => EmptyString
  | String c s' => String (lower_ascii c) (toLowerCase s')
  end.

(** ** Arbitrary-precision decimals

    The value type of [bignumber.js], as far as the source uses it: a finite
    decimal is a mantissa and a count of decimal places, anything that is
    not a finite decimal is [NaN].  [plus] and [times] are exact;
    [decimalPlaces] and [toFixed] round with the library's default
    [ROUND_HALF_UP] (to nearest, ties away from zero). *)
Module BigNumber.

Record dec := mkDec { mant : Z; dp : nat }.

Inductive t :=
  | NaN
  | Fin (d : dec).

Definition pow10 (n : nat) : Z := (10 ^ Z.of_nat n)%Z.

Definition zero : t := Fin (mkDec 0 0).

Definition isFinite (x : t) : bool :=
  match x with NaN => false | Fin _ => true end.

Definition plus_dec (a b : dec) : dec :=
  let s := Nat.max (dp a) (dp b) in
  mkDec (mant a * pow10 (s - dp a) + mant b * pow10 (s - dp b))%Z s.

Definition times_dec (a b : dec) : dec :=
  mkDec (mant a * mant b)%Z (dp a + dp b).

Definition plus (x y : t) : t :=
  match x, y with
  | Fin a, Fin b => Fin (plus_dec a b)
  | _, _ => NaN
  end.

Definition times (x y : t) : t :=
  match x, y with
  | Fin a, Fin b => Fin (times_dec a b)
  | _, _ => NaN
  end.

(** Division by [10^n]: the decimal point moves, no digit is lost. *)
Definition shiftedBy_neg (n : nat) (x : t) : t :=
  match x with
  | Fin a => Fin (mkDec (mant a) (dp a + n))
  | NaN => NaN
  end.

(** [m / 10^k] to the nearest integer, ties away from zero. *)
Definition round_half_up (m : Z) (k : nat) : Z :=
  (Z.sgn m * ((Z.abs m + pow10 k / 2) / pow10 k))%Z.

(** The mantissa of [a] at exactly [n] decimal places. *)
Definition rescale (n : nat) (a : dec) : Z :=
  if (dp a <=? n)%nat then (mant a * pow10 (n - dp a))%Z
  else round_half_up (mant a) (dp a - n).

(** [x.decimalPlaces(n)]: at most [n] decimal places. *)
Definition decimalPlaces (n : nat) (x : t) : t :=
  match x with
  | NaN => NaN
  | Fin a => if (dp a <=? n)%nat then Fin a else Fin (mkDec (rescale n a) n)
  end.

(** Decimal digits of a natural number. *)
Definition digits (u : Z) : string :=
  NilZero.string_of_uint (N.to_uint (Z.to_N u)).

(** Exactly [n] digits of [u], zero-padded on the left. *)
Fixpoint digits_fixed (n : nat) (u : Z) : string :=
  match n with
  | O => EmptyString
  | S k => digits ((u / pow10 k) mod 10) +:+ digits_fixed k (u mod pow10 k)
  end.

(** Fixed-point notation of [u / 10^d] for [0 <= u]. *)
Definition fixed_point (u : Z) (d : nat) : string :=
  match d with
  | O => digits u
  | S _ => digits (u / pow10 d) +:+ "." +:+ digits_fixed d (u mod pow10 d)
  end.

(** [x.toFixed(n)]: the sign is that of the value before rounding. *)
Definition toFixed (n : nat) (x : t) : string :=
  match x with
  | NaN => "NaN"
  | Fin a =>
      (if (mant a <? 0)%Z then "-" else "") +:+ fixed_point (Z.abs (rescale n a)) n
  end.

(** Mantissa and decimal places without trailing zeros in the fraction. *)
Fixpoint normalize (m : Z) (d : nat) : Z * nat :=
  match d with
  | O => (m, O)
  | S d' => if (m mod 10 =? 0)%Z then normalize (m / 10) d' else (m, d)
  end.

(** A digit string without its trailing zeros. *)
Fixpoint strip_zeros (s : string) : string :=
  match s with
  | EmptyString => EmptyString
  | String c s' =>
      match strip_zeros s' with
      | EmptyString => if Ascii.eqb c "0" then EmptyString else String c EmptyString
      | r => String c r
      end
  end.

(** Exponential notation of [u * 10^-d], [0 < u]. *)
Definition exponential (u : Z) (d : nat) : string :=
  let ds := digits u in
  let e := (Z.of_nat (String.length ds) - 1 - Z.of_nat d)%Z in
  let c := strip_zeros ds in
  let coeff :=
    match c with
    | String c0 (String _ _ as r) => String c0 ("." +:+ r)
    | _ => c
    end in
  coeff +:+ (if (e <? 0)%Z then "e-" else "e+") +:+ digits (Z.abs e).

(** [x.toString()]: fixed-point notation, exponential notation when the
    decimal exponent is at least 21 or at most -7 (the library's default
    [EXPONENTIAL_AT]). *)
Definition toString (x : t) : string :=
  match x with
  | NaN => "NaN"
  | Fin a =>
      let '(m, d) := normalize (mant a) (dp a) in
      let u := Z.abs m in
      if (u =? 0)%Z then "0"
      else
        (if (m <? 0)%Z then "-" else "") +:+
        (if (pow10 (21 + d) <=? u)%Z || (u * pow10 6 <? pow10 d)%Z
         then exponential u d
         else fixed_point u d)
  end.

(** *** Reading a decimal numeral *)

Definition digit_of_ascii (c : ascii) : option Z :=
  let n := nat_of_ascii c in
  if (48 <=? n)%nat && (n <=? 57)%nat then Some (Z.of_nat (n - 48)) else None.

(** Reads the longest prefix of digits: the number read on top of [acc],
    how many digits were read, and the rest of the text. *)
Fixpoint scan_digits (s : string) (acc : Z) (count : nat) : Z * nat * string :=
  match s with
  | EmptyString => (acc, count, EmptyString)
  | String c s' =>
      match digit_of_ascii c with
      | Some v => scan_digits s' (10 * acc + v)%Z (S count)
      | None => (acc, count, s)
      end
  end.

(** The exponent part [e[+-]?digits] up to the end of the text; the empty
    text is exponent 0. *)
Definition scan_exponent (s : string) : option Z :=
  match s with
  | EmptyString => Some 0%Z
  | String c s' =>
      if Ascii.eqb c "e" || Ascii.eqb c "E" then
        let '(neg, body) :=
          match s' with
          | String c' r =>
              if Ascii.eqb c' "-" then (true, r)
              else if Ascii.eqb c' "+" then (false, r)
              else (false, s')
          | EmptyString => (false, s')
          end in
        match scan_digits body 0 0 with
        | (v, S _, EmptyString) => Some (if neg then - v else v)%Z
        | _ => None
        end
      else None
  end.

(** [new BigNumber(s)] for a string in base 10: an optional minus sign,
    digits with an optional fraction (or a fraction alone), an optional
    exponent.  Any other text is [NaN]. *)
Definition of_string (s : string) : t :=
  let '(neg, body) :=
    match s with
    | String c r => if Ascii.eqb c "-" then (true, r) else (false, s)
    | EmptyString => (false, s)
    end in
  let '(ip, n1, rest) := scan_digits body 0 0 in
  let '(m, n2, rest') :=
    match rest with
    | String "." r => scan_digits r ip 0
    | _ => (ip, O, rest)
    end in
  if (n1 + n2 =? 0)%nat then NaN
  else
    match scan_exponent rest' with
    | None => NaN
    | Some e =>
        let m := if neg then (- m)%Z else m in
        if (Z.of_nat n2 <=? e)%Z
        then Fin (mkDec (m * 10 ^ (e - Z.of_nat n2)) 0)
        else Fin (mkDec m (Z.to_nat (Z.of_nat n2 - e)))
    end.

(** The rational a finite decimal denotes. *)
Definition value (a : dec) : Q := mant a # Z.to_pos (pow10 (dp a)).

End BigNumber.

(** ** [lib/bignumber/bignumber] and [lib/math] *)

(** [BigNumber.Value | undefined]: what the helpers below accept. *)
Inductive BNValue :=
  | V_undefined
  | V_string (s : string)
  | V_number (n : Z)
  | V_big (b : BigNumber.t).

Definition V_optional (o : option string) : BNValue :=
  match o with Some s => V_string s | None => V_undefined end.

(** Modelled from the spec: [bn] of [lib/bignumber/bignumber] is not among
    the sources.  The spec's decimal arithmetic helper "wraps an
    arbitrary-precision decimal type": [bn] is that type's constructor. *)
Definition bn (v : BNValue) : BigNumber.t :=
  match v with
  | V_undefined => BigNumber.NaN
  | V_string s => BigNumber.of_string s
  | V_number n => BigNumber.Fin (BigNumber.mkDec n 0)
  | V_big b => b
  end.

(** Modelled from the spec: [bnOrZero] of [lib/bignumber/bignumber] is not
    among the sources.  The spec has each balance "coerced to zero if
    absent/invalid". *)
Definition bnOrZero (v : BNValue) : BigNumber.t :=
  let b := bn v in
  if BigNumber.isFinite b then b else bn (V_number 0).

(** Modelled from the spec: [fromBaseUnit] of [lib/math] is not among the
    sources.  The spec has the balance "converted from base units using the
    asset's precision": the value divided by [10^precision], handed on as a
    decimal. *)
Definition fromBaseUnit (v : BNValue) (precision : nat) : BNValue :=
  V_big (BigNumber.shiftedBy_neg precision (bn v)).

(** ** State passing

    Code that writes to objects or to the console is a function from the
    state before to a result and the state after. *)
Definition State (S A : Type) : Type := S → A * S.

Definition ret {S A} (a : A) : State S A := λ σ, (a, σ).

Definition bind {S A B} (m : State S A) (f : A → State S B) : State S B :=
  λ σ, let '(a, σ') := m σ in f a σ'.

Notation "'do' x <- m ;; k" := (bind m (λ x, k))
  (at level 10, x name, m at level 99, k at level 200, only parsing).

(** [l.map(f)] for an [f] with effects, left to right. *)
Fixpoint mapM {S A B} (f : A → State S B) (l : list A) : State S (list B) :=
  match l with
  | [] => ret []
  | x :: l' => do y <- f x;; do ys <- mapM f l';; ret (y :: ys)
  end.

(** [l.reduce(f, init)] for an [f] with effects. *)
Fixpoint reduceM {S A B} (f : B → A → State S B) (l : list A) (init : B) : State S B :=
  match l with
  | [] => ret init
  | x :: l' => do acc <- f init x;; reduceM f l' acc
  end.

(** ** The account-to-portfolio normalizer *)

(** The assignments and pushes of [accountsToPortfolio], one definition per
    statement form; [p] is the object the local [portfolio] refers to. *)

(** [portfolio.accounts.byId[k] = l] *)
Definition accounts_byId_set (k : CAIP10) (l : list CAIP19) (p : Portfolio) : Portfolio :=
  {| accounts := PortfolioAccounts.mk (<[k := l]> (PortfolioAccounts.byId (accounts p)))
                                      (PortfolioAccounts.ids (accounts p));
     balances := balances p |}.

(** [portfolio.accounts.ids.push(k)] *)
Definition accounts_ids_push (k : CAIP10) (p : Portfolio) : Portfolio :=
  {| accounts := PortfolioAccounts.mk (PortfolioAccounts.byId (accounts p))
                                      (PortfolioAccounts.ids (accounts p) ++ [k]);
     balances := balances p |}.

(** [portfolio.accounts.byId[k].push(id)]; the array is there, line 94 has
    just stored it ([alter] leaves a map without [k] as it is, where
    JavaScript would throw). *)
Definition accounts_byId_push (k : CAIP10) (id : CAIP19) (p : Portfolio) : Portfolio :=
  {| accounts := PortfolioAccounts.mk
                   (alter (λ l, l ++ [id]) k (PortfolioAccounts.byId (accounts p)))
                   (PortfolioAccounts.ids (accounts p));
     balances := balances p |}.

(** [portfolio.balances.ids.push(id)] *)
Definition balances_ids_push (id : CAIP19) (p : Portfolio) : Portfolio :=
  {| accounts := accounts p;
     balances := PortfolioBalances.mk (PortfolioBalances.byId (balances p))
                                      (PortfolioBalances.ids (balances p) ++ [id]) |}.

(** [portfolio.balances.byId[id] = b] *)
Definition balances_byId_set (id : CAIP19) (b : string) (p : Portfolio) : Portfolio :=
  {| accounts := accounts p;
     balances := PortfolioBalances.mk (<[id := b]> (PortfolioBalances.byId (balances p)))
                                      (PortfolioBalances.ids (balances p)) |}.

(** The sum of line 121: [addresses.reduce((acc, cur) =>
    acc.plus(bnOrZero(cur.balance)), bn(0))]. *)
Definition totalSats (addrs : list Address) : BigNumber.t :=
  foldl (λ acc cur, BigNumber.plus acc (bnOrZero (V_optional (address_balance cur))))
        (bn (V_number 0)) addrs.

Section normalizer.

(** [caip19.toCAIP19] of [@shapeshiftoss/caip], an external collaborator. *)
Variable toCAIP19 : ToCAIP19Args → CAIP19.

(** The identifier of a token, lines 106-109. *)
Definition tokenCAIP19 (chain : ChainTypes) (network : NetworkTypes) (token : Token) : CAIP19 :=
  toLowerCase
    (toCAIP19 {| arg_chain := chain; arg_network := network;
                 arg_contractType := Some (token_contractType token);
                 arg_tokenId := Some (token_contract token) |}).

(** The identifier of the chain's own asset, lines 99 and 118. *)
Definition nativeCAIP19 (chain : ChainTypes) (network : NetworkTypes) : CAIP19 :=
  toCAIP19 {| arg_chain := chain; arg_network := network;
              arg_contractType := None; arg_tokenId := None |}.

(** The callback of [tokens.forEach], lines 105-113. *)
Definition forEach_token (chain : ChainTypes) (network : NetworkTypes) (k : CAIP10)
    (p : Portfolio) (token : Token) : Portfolio :=
  let id := tokenCAIP19 chain network token in
  let p := accounts_byId_push k id p in
  let p := balances_ids_push id p in
  balances_byId_set id (token_balance token) p.

(** The callback of [Object.entries(args).forEach], lines 92-135. *)
Definition forEach_account (p : Portfolio) (entry : CAIP10 * Account) : Portfolio :=
  let '(k, account) := entry in
  let p := accounts_byId_set k [] p in
  let p := accounts_ids_push k p in
  match chain account with
  | Ethereum =>
      let ethCAIP19 := nativeCAIP19 (chain account) (network account) in
      let p := accounts_byId_push k ethCAIP19 p in
      let p := balances_ids_push ethCAIP19 p in
      let p := balances_byId_set ethCAIP19 (balance account) p in
      match tokens (chainSpecific account) with
      | None => p
      | Some toks => foldl (forEach_token (chain account) (network account) k) p toks
      end
  | Bitcoin =>
      let btcCAIP19 := nativeCAIP19 (chain account) (network account) in
      let addrs := default [] (addresses (chainSpecific account)) in
      let bal := BigNumber.toString (BigNumber.decimalPlaces 0 (totalSats addrs)) in
      let p := accounts_byId_push k btcCAIP19 p in
      let p := balances_byId_set btcCAIP19 bal p in
      balances_ids_push btcCAIP19 p
  | OtherChain _ => p
  end.

(** [accountsToPortfolio] on values: [portfolio] starts as a copy of
    [initialState] and goes through the entries in order. *)
Definition accountsToPortfolio (args : AccountsToPortfolioArgs) : Portfolio :=
  foldl forEach_account initialState args.

End normalizer.

(** The string a member of the enum [ChainTypes] is at run time. *)
Definition ChainTypes_value (c : ChainTypes) : string :=
  match c with
  | Ethereum => "ethereum"
  | Bitcoin => "bitcoin"
  | OtherChain name => name
  end.

(** Modelled from the spec: [caip19.toCAIP19] is outside the sources; the
    spec has the asset identifier computed from "chain+network+contract".
    This instance serves to run the normalizer on concrete inputs; the
    theorems below hold for every [toCAIP19]. *)
Definition toCAIP19_model (a : ToCAIP19Args) : CAIP19 :=
  ChainTypes_value (arg_chain a) +:+ ":" +:+ arg_network a +:+
  match arg_tokenId a with
  | Some tokenId => "/" +:+ default "" (arg_contractType a) +:+ ":" +:+ tokenId
  | None => "/native"
  end.

(** ** The query function of [portfolioApi.getAccounts] *)

(** An element of the array [Promise.allSettled] resolves to. *)
Inductive PromiseSettledResult :=
  | fulfilled (value : Account)
  | rejected (reason : string).

(** What a [queryFn] hands back to RTK Query. *)
Inductive QueryReturnValue :=
  | QueryData (data : list (string * Account))
  | QueryError (error : string).

(** What the query function does to the outside: the callbacks started for
    the entries of [pubkeys], and the lines written by [console.error]. *)
Record World := {
  started : list (CAIP2 * string);
  console : list string
}.

(** [obj[k] = v] on an object kept as its list of entries: a key that is
    there keeps its place and takes the new value, a new key goes last. *)
Definition object_set {V} (k : string) (v : V) (o : list (string * V)) : list (string * V) :=
  if decide (k ∈ o.*1)
  then (λ e, if decide (e.1 = k) then (k, v) else e) <$> o
  else o ++ [(k, v)].

Definition console_error (line : string) : State World unit :=
  λ w, (tt, {| started := started w; console := console w ++ [line] |}).

Section orchestrator.

(** [caip2.toCAIP2] and [caip10.toCAIP10] of [@shapeshiftoss/caip]. *)
Variable toCAIP2 : ChainTypes → NetworkTypes → CAIP2.
Variable toCAIP10 : CAIP2 → string → CAIP10.

(** How the promise of the callback of line 155 settles for an entry:
    [caip2.fromCAIP2], [chainAdapters.byChain] and the adapter's
    [getAccount] are external, a throw in any of them rejects the
    promise.  The keys of [pubkeys] are distinct, so a function of the
    entry fixes the outcome of every request of one run. *)
Variable settle : CAIP2 * string → PromiseSettledResult.

(** Line 155-159: the callback is started for the entry; its promise is
    stood for by the way it settles. *)
Definition getAccount_callback (entry : CAIP2 * string) : State World PromiseSettledResult :=
  λ w, (settle entry, {| started := started w ++ [entry]; console := console w |}).

(** Lines 164-174, the callback of [maybeAccounts.reduce]. *)
Definition reduce_maybeAccount (acc : list (string * Account)) (cur : PromiseSettledResult)
    : State World (list (string * Account)) :=
  match cur with
  | rejected reason =>
      do _u <- console_error ("portfolioApi: " +:+ reason);;
      ret acc
  | fulfilled value =>
      let CAIP2 := toCAIP2 (chain value) (network value) in
      let CAIP10 := toCAIP10 CAIP2 (pubkey value) in
      ret (object_set CAIP10 value acc)
  end.

(** Lines 148-176.  [pubkeys] is the list [Object.entries] enumerates;
    [Promise.allSettled] yields one result per promise, in order. *)
Definition queryFn (pubkeys : list (CAIP2 * string)) : State World QueryReturnValue :=
  match pubkeys with
  | [] => ret (QueryData [])
  | _ =>
      do maybeAccounts <- mapM getAccount_callback pubkeys;;
      do data <- reduceM reduce_maybeAccount maybeAccounts [];;
      ret (QueryData data)
  end.

End orchestrator.

(** ** Selectors *)

Record Asset := {
  asset_caip19 : CAIP19;
  asset_precision : nat
}.

Record MarketData := {
  price : string
}.

Record ReduxState := {
  state_assets : gmap string Asset;
  state_portfolio : Portfolio
}.

Definition selectPortfolioAssetIds (state : ReduxState) : list CAIP19 :=
  PortfolioBalances.ids (balances (state_portfolio state)).

Definition selectPortfolioCryptoBalances (state : ReduxState) : gmap string string :=
  PortfolioBalances.byId (balances (state_portfolio state)).

Definition selectPortfolioCryptoBalanceById (state : ReduxState) (id : CAIP19) : option string :=
  selectPortfolioCryptoBalances state !! id.

(** The step of the [reduce] of lines 218-225.  [!price || !precision] is
    true for a missing record, for the empty string and for the number 0. *)
Definition totalFiat_step (assets : gmap string Asset) (marketData : gmap string MarketData)
    (acc : BigNumber.t) (entry : CAIP19 * string) : BigNumber.t :=
  let '(CAIP19, balanceString) := entry in
  let precision := asset_precision <$> assets !! CAIP19 in
  let price := price <$> marketData !! CAIP19 in
  match price, precision with
  | Some price, Some precision =>
      if bool_decide (price = "") || (precision =? 0) then acc
      else
        let cryptoValue := fromBaseUnit (V_string balanceString) precision in
        let assetFiatBalance := BigNumber.times (bnOrZero cryptoValue) (bn (V_string price)) in
        BigNumber.plus acc assetFiatBalance
  | _, _ => acc
  end.

(** The result function of [selectTotalFiatBalance], lines 216-229, up to
    the decimal [result.decimalPlaces(2)]; the closing [toNumber()] takes
    the double nearest to that decimal and is not part of the embedding.
    [Object.entries] is [map_to_list]. *)
Definition totalFiatBalance (assets : gmap string Asset) (marketData : gmap string MarketData)
    (cryptoBalances : gmap string string) : BigNumber.t :=
  let result := foldl (totalFiat_step assets marketData) (bn (V_number 0))
                      (map_to_list cryptoBalances) in
  BigNumber.decimalPlaces 2 result.

(** The result function of [selectAssetFiatBalance], lines 237-243. *)
Definition assetFiatBalance (assets : gmap string Asset) (marketData : gmap string MarketData)
    (cryptoBalances : gmap string string) (CAIP19 : CAIP19) : string :=
  let balance := cryptoBalances !! CAIP19 in
  let precision := asset_precision <$> assets !! CAIP19 in
  let price := price <$> marketData !! CAIP19 in
  match price, precision with
  | Some price, Some precision =>
      if bool_decide (price = "") || (precision =? 0) then "0"
      else
        BigNumber.toFixed 2
          (BigNumber.times (bnOrZero (fromBaseUnit (V_optional balance) precision))
                           (bn (V_string price)))
  | _, _ => "0"
  end.

Section selectors.

(** [selectAssetsById] and [selectMarketData] belong to sibling slices. *)
Variable selectAssetsById : ReduxState → gmap string Asset.
Variable selectMarketData : ReduxState → gmap string MarketData.

Definition selectTotalFiatBalance (state : ReduxState) : BigNumber.t :=
  totalFiatBalance (selectAssetsById state) (selectMarketData state)
                   (selectPortfolioCryptoBalances state).

Definition selectAssetFiatBalance (state : ReduxState) (CAIP19 : CAIP19) : string :=
  assetFiatBalance (selectAssetsById state) (selectMarketData state)
                   (selectPortfolioCryptoBalances state) CAIP19.

Definition selectAssetCryptoBalance (state : ReduxState) (CAIP19 : CAIP19) : option string :=
  selectPortfolioCryptoBalances state !! CAIP19.

End selectors.

(** ** The hook [useFetchAsset] *)

Inductive Action :=
  | fetchAsset (caip19 : CAIP19).

(** How a piece of JavaScript ends: with a value, or with a thrown error. *)
Inductive Completion (A : Type) :=
  | Normal (a : A)
  | Throw (error : string).
Arguments Normal {A} a.
Arguments Throw {A} error.

(** [asset.caip19]: reading a property of [undefined] throws. *)
Definition get_caip19 (asset : option Asset) : Completion CAIP19 :=
  match asset with
  | Some a => Normal (asset_caip19 a)
  | None => Throw "TypeError: Cannot read properties of undefined (reading 'caip19')"
  end.

(** Line 14: [state.assets[tokenId ?? chain]]. *)
Definition useFetchAsset_select (chain : ChainTypes) (tokenId : option string)
    (state : ReduxState) : option Asset :=
  state_assets state !! default (ChainTypes_value chain) tokenId.

(** Lines 16-19, the body of the effect: the actions it dispatched. *)
Definition useFetchAsset_effect (asset : option Asset) : Completion (list Action) :=
  if bool_decide (is_Some asset) then Normal []
  else
    match get_caip19 asset with
    | Normal id => Normal [fetchAsset id]
    | Throw e => Throw e
    end.

(** ** Specification-side definitions

    What the specification says the code computes, written independently of
    the code, to be compared with it below. *)

(** The three writes that record asset [id] with balance [b] for the
    account [k]. *)
Definition record_asset (k : CAIP10) (p : Portfolio) (w : CAIP19 * string) : Portfolio :=
  balances_byId_set w.1 w.2 (balances_ids_push w.1 (accounts_byId_push k w.1 p)).

(** The writes of a list of recordings to a balance index, in order: a
    later recording of an identifier replaces an earlier one. *)
Definition insert_all (ws : list (CAIP19 * string)) (m : gmap string string) : gmap string string :=
  foldl (λ m w, <[w.1 := w.2]> m) m ws.

(** The sum of the address balances as a rational, an absent or invalid
    balance counting as zero. *)
Definition coerced_value (o : option string) : Q :=
  match o with
  | Some s =>
      match BigNumber.of_string s with
      | BigNumber.Fin a => BigNumber.value a
      | BigNumber.NaN => 0%Q
      end
  | None => 0%Q
  end.

Definition spec_totalSats (addrs : list Address) : Q :=
  foldr (λ cur acc, (coerced_value (address_balance cur) + acc)%Q) 0%Q addrs.

(** A rational to the nearest integer, ties away from zero. *)
Definition Qround_half_up (q : Q) : Z :=
  (Z.sgn (Qnum q) * Qfloor (Qabs q + (1 # 2)))%Z.

Section recorded.

Variable toCAIP19 : ToCAIP19Args → CAIP19.

(** The asset identifiers and balances the spec has the normalizer record
    for one account, in order: the native asset and one entry per token for
    an account-based chain, the one summed entry for a UTXO-based chain,
    nothing for another chain kind. *)
Definition recorded (account : Account) : list (CAIP19 * string) :=
  match chain account with
  | Ethereum =>
      (nativeCAIP19 toCAIP19 Ethereum (network account), balance account) ::
      ((λ token, (tokenCAIP19 toCAIP19 Ethereum (network account) token, token_balance token))
         <$> default [] (tokens (chainSpecific account)))
  | Bitcoin =>
      [(nativeCAIP19 toCAIP19 Bitcoin (network account),
        BigNumber.toString
          (BigNumber.Fin
             (BigNumber.mkDec
                (Qround_half_up (spec_totalSats (default [] (addresses (chainSpecific account)))))
                0)))]
  | OtherChain _ => []
  end.

(** All recordings of an argument, in order. *)
Definition recordings (args : AccountsToPortfolioArgs) : list (CAIP19 * string) :=
  args ≫= (λ entry, recorded entry.2).

End recorded.

(** The fiat value of a balance in the spec's words: the balance converted
    from base units with the asset's precision, times the market price. *)
Definition spec_fiatValue (balance : option string) (precision : nat) (price : string) : Q :=
  (coerced_value balance / inject_Z (BigNumber.pow10 precision) * coerced_value (Some price))%Q.

(** The per-asset fiat balance of the spec: zero when the price or the
    precision of the asset is not known. *)
Definition spec_assetFiat (assets : gmap string Asset) (marketData : gmap string MarketData)
    (id : CAIP19) (balance : option string) : Q :=
  match marketData !! id, assets !! id with
  | Some m, Some a => spec_fiatValue balance (asset_precision a) (price m)
  | _, _ => 0%Q
  end.

(** The exact sum of the per-asset fiat balances of the held assets. *)
Definition spec_totalFiat (assets : gmap string Asset) (marketData : gmap string MarketData)
    (cryptoBalances : gmap string string) : Q :=
  foldr (λ entry acc, (spec_assetFiat assets marketData entry.1 (Some entry.2) + acc)%Q) 0%Q
        (map_to_list cryptoBalances).

(** A rational in hundredths, rounded half up. *)
Definition Qround_cents (q : Q) : Z := Qround_half_up (q * 100)%Q.

(** A rational rounded to hundredths, written with two decimals. *)
Definition spec_toFixed2 (q : Q) : string :=
  (if (Qnum q <? 0)%Z then "-" else "") +:+ BigNumber.fixed_point (Z.abs (Qround_cents q)) 2.


(** The values of the fulfilled requests and the reasons of the rejected
    ones, in the order of the requests. *)
Definition fulfilled_value (cur : PromiseSettledResult) : option Account :=
  match cur with fulfilled value => Some value | rejected _ => None end.

Definition rejected_reason (cur : PromiseSettledResult) : option string :=
  match cur with fulfilled _ => None | rejected reason => Some reason end.

Section accountId.

Variable toCAIP2 : ChainTypes → NetworkTypes → CAIP2.
Variable toCAIP10 : CAIP2 → string → CAIP10.

(** The composite account identifier of a fulfilled request, lines 169-170. *)
Definition accountId (value : Account) : CAIP10 :=
  toCAIP10 (toCAIP2 (chain value) (network value)) (pubkey value).

(** Storing a fulfilled value under its identifier. *)
Definition store_value (acc : list (string * Account)) (value : Account) : list (string * Account) :=
  object_set (accountId value) value acc.

End accountId.

(** What keeps an asset clear of the guard [!price || !precision] when its
    price and precision are known: a precision other than 0 and a price
    that is a decimal numeral. *)
Definition priced (assets : gmap string Asset) (marketData : gmap string MarketData)
    (id : CAIP19) : Prop :=
  ∀ a m, assets !! id = Some a → marketData !! id = Some m →
         asset_precision a ≠ 0 ∧ BigNumber.isFinite (BigNumber.of_string (price m)) = true.

(** ** Sample inputs *)

Definition sample_eth : Account :=
  {| balance := "1000"; pubkey := "0xF00"; chain := Ethereum; network := "MAINNET";
     chainSpecific :=
       {| tokens := Some [ {| token_balance := "7"; token_contract := "0xAbC1";
                              token_contractType := "ERC20" |};
                           {| token_balance := "9"; token_contract := "0xDeF2";
                              token_contractType := "ERC20" |} ];
          addresses := None |} |}.

Definition sample_btc : Account :=
  {| balance := "350"; pubkey := "xpub1"; chain := Bitcoin; network := "MAINNET";
     chainSpecific :=
       {| tokens := None;
          addresses := Some [ {| address_pubkey := "bc1a"; address_balance := Some "100" |};
                              {| address_pubkey := "bc1b"; address_balance := Some "250" |};
                              {| address_pubkey := "bc1c"; address_balance := Some "0" |} ] |} |}.

Definition sample_btc2 : Account :=
  {| balance := "12"; pubkey := "zpub2"; chain := Bitcoin; network := "MAINNET";
     chainSpecific :=
       {| tokens := None;
          addresses := Some [ {| address_pubkey := "bc1d"; address_balance := Some "12" |};
                              {| address_pubkey := "bc1e"; address_balance := None |} ] |} |}.

Definition sample_other : Account :=
  {| balance := "5"; pubkey := "cosmos1"; chain := OtherChain "cosmos"; network := "MAINNET";
     chainSpecific := {| tokens := None; addresses := None |} |}.

Definition sample_args : list (string * Account) :=
  [("eip155:1:0xF00", sample_eth); ("cosmos:1:cosmos1", sample_other);
   ("bip122:1:xpub1", sample_btc)].

Definition sample_assets : gmap string Asset :=
  {[ "btc" := {| asset_caip19 := "btc"; asset_precision := 8 |};
     "nft" := {| asset_caip19 := "nft"; asset_precision := 0 |} ]}.

Definition sample_marketData : gmap string MarketData :=
  {[ "btc" := {| price := "2.00" |}; "nft" := {| price := "7" |} ]}.

Definition sample_balances : gmap string string :=
  {[ "btc" := "150000000"; "nft" := "3" ]}.

(** ** The rest of the slice *)

(** Line 210: a second name for the balance index. *)
Definition selectBalances (state : ReduxState) : gmap string string :=
  PortfolioBalances.byId (balances (state_portfolio state)).

(** The result function of [selectPortfolioAssets], lines 252-256:
    [ids.reduce((acc, cur) => ({ ...acc, [cur]: assets[cur] }), {})].  The
    value stored for [cur] is [assets[cur]], which is [undefined] for an
    identifier the asset slice does not know: [None]. *)
Definition portfolioAssets (assets : gmap string Asset) (ids : list CAIP19)
    : gmap string (option Asset) :=
  foldl (λ acc cur, <[cur := assets !! cur]> acc) ∅ ids.

Section selectPortfolioAssets.

Variable selectAssetsById : ReduxState → gmap string Asset.

Definition selectPortfolioAssets (state : ReduxState) : gmap string (option Asset) :=
  portfolioAssets (selectAssetsById state) (selectPortfolioAssetIds state).

End selectPortfolioAssets.

(** The [reduce] of lines 217-227 alone, before [decimalPlaces(2)]. *)
Definition totalFiat_sum (assets : gmap string Asset) (marketData : gmap string MarketData)
    (cryptoBalances : gmap string string) : BigNumber.t :=
  foldl (totalFiat_step assets marketData) (bn (V_number 0)) (map_to_list cryptoBalances).

(** The guard [!price || !precision] of lines 221 and 241 as a test on the
    two slices. *)
Definition unpriced (assets : gmap string Asset) (marketData : gmap string MarketData)
    (id : CAIP19) : bool :=
  match price <$> marketData !! id, asset_precision <$> assets !! id with
  | Some price, Some precision => bool_decide (price = "") || (precision =? 0)
  | _, _ => true
  end.

(** [getCacheEntry().data] once the query function has answered. *)
Definition cache_data (answer : QueryReturnValue) : option (list (string * Account)) :=
  match answer with
  | QueryData data => Some data
  | QueryError _ => None
  end.

Section onCacheEntryAdded.

Variable toCAIP19 : ToCAIP19Args → CAIP19.
Variable toCAIP2 : ChainTypes → NetworkTypes → CAIP2.
Variable toCAIP10 : CAIP2 → string → CAIP10.
Variable settle : CAIP2 * string → PromiseSettledResult.

(** Lines 177-189 from [await cacheDataLoaded] on, acting on the portfolio
    slice: [if (!account) return] leaves the slice alone, and an object,
    the empty one too, is truthy, so its portfolio is dispatched to
    [setPortfolio]. *)
Definition onCacheEntryAdded (data : option (list (string * Account))) (state : Portfolio)
    : Portfolio :=
  match data with
  | None => state
  | Some account => setPortfolio state (accountsToPortfolio toCAIP19 account)
  end.

(** One run of the endpoint [getAccounts]: the query function, then
    [onCacheEntryAdded] on the data it answered with. *)
Definition getAccounts (pubkeys : list (CAIP2 * string)) (state : Portfolio)
    : State World Portfolio :=
  do answer <- queryFn toCAIP2 toCAIP10 settle pubkeys;;
  ret (onCacheEntryAdded (cache_data answer) state).

End onCacheEntryAdded.

(** ** [accountsToPortfolio] on the heap

    Every object and array of the source is a cell of the heap and is
    handled by reference; strings and numbers are values.  A reference is
    an index into the heap, allocation appends a cell.  A write may go to
    any cell that is there: the argument's objects and [initialState] are
    cells like the others. *)

Abbreviation ref := nat (only parsing).

(** What an account object holds itself; [chainSpecific] is an object of
    its own. *)
Record AccountCell := {
  cell_balance : string;
  cell_pubkey : string;
  cell_chain : ChainTypes;
  cell_network : NetworkTypes;
  cell_chainSpecific : ref
}.

(** The objects of the program: an array of strings ([ids], the asset
    list of an account), an array of objects ([tokens], [addresses]), the
    two [byId] dictionaries, an index [{ byId, ids }], a portfolio, the
    argument object, and the objects an account is made of. *)
Inductive Object :=
  | O_strings (items : list string)
  | O_objects (items : list ref)
  | O_balances_byId (props : gmap string string)
  | O_accounts_byId (props : gmap string ref)
  | O_index (byId_ref ids_ref : ref)
  | O_portfolio (accounts_ref balances_ref : ref)
  | O_args (entries : list (string * ref))
  | O_account (cell : AccountCell)
  | O_chainSpecific (tokens_ref addresses_ref : option ref)
  | O_token (token : Token)
  | O_address (address : Address).

Abbreviation Heap := (list Object) (only parsing).

(** A computation on the heap ends with a value and a heap, or throws. *)
Definition Run (A : Type) : Type := Heap → Completion (A * Heap).

Definition run_ret {A} (a : A) : Run A := λ h, Normal (a, h).

Definition run_bind {A B} (m : Run A) (f : A → Run B) : Run B :=
  λ h, match m h with
       | Normal (a, h') => f a h'
       | Throw e => Throw e
       end.

Notation "'run' x <- m ;; k" := (run_bind m (λ x, k))
  (at level 10, x name, m at level 99, k at level 200, only parsing).

Definition TypeError {A} : Run A := λ _, Throw "TypeError".

(** A new object. *)
Definition alloc (o : Object) : Run nat := λ h, Normal (length h, h ++ [o]).

(** The object behind a reference. *)
Definition load (r : ref) : Run Object :=
  λ h, match h !! r with
       | Some o => Normal (o, h)
       | None => Throw "TypeError"
       end.

(** A write to the object behind a reference, whichever object it is. *)
Definition store (r : ref) (o : Object) : Run unit :=
  λ h, if decide (r < length h) then Normal (tt, <[r := o]> h) else Throw "TypeError".

Fixpoint run_forEach {A} (l : list A) (f : A → Run unit) : Run unit :=
  match l with
  | [] => run_ret tt
  | x :: l' => run _u <- f x;; run_forEach l' f
  end.

Fixpoint run_map {A B} (f : A → Run B) (l : list A) : Run (list B) :=
  match l with
  | [] => run_ret []
  | x :: l' => run y <- f x;; run ys <- run_map f l';; run_ret (y :: ys)
  end.

Fixpoint run_reduce {A B} (f : B → A → Run B) (l : list A) (init : B) : Run B :=
  match l with
  | [] => run_ret init
  | x :: l' => run acc <- f init x;; run_reduce f l' acc
  end.

(** *** Property reads *)

(** [portfolio.accounts], [portfolio.balances] *)
Definition portfolio_accounts (portfolio : ref) : Run ref :=
  run o <- load portfolio;;
  match o with O_portfolio a _ => run_ret a | _ => TypeError end.

Definition portfolio_balances (portfolio : ref) : Run ref :=
  run o <- load portfolio;;
  match o with O_portfolio _ b => run_ret b | _ => TypeError end.

(** [index.byId], [index.ids] *)
Definition index_byId (index : ref) : Run ref :=
  run o <- load index;;
  match o with O_index byId _ => run_ret byId | _ => TypeError end.

Definition index_ids (index : ref) : Run ref :=
  run o <- load index;;
  match o with O_index _ ids => run_ret ids | _ => TypeError end.

Definition load_account (account : ref) : Run AccountCell :=
  run o <- load account;;
  match o with O_account cell => run_ret cell | _ => TypeError end.

Definition load_chainSpecific (chainSpecific : ref) : Run (option ref * option ref) :=
  run o <- load chainSpecific;;
  match o with O_chainSpecific t a => run_ret (t, a) | _ => TypeError end.

Definition load_objects (array : ref) : Run (list ref) :=
  run o <- load array;;
  match o with O_objects items => run_ret items | _ => TypeError end.

Definition load_token (token : ref) : Run Token :=
  run o <- load token;;
  match o with O_token t => run_ret t | _ => TypeError end.

Definition load_address (address : ref) : Run Address :=
  run o <- load address;;
  match o with O_address a => run_ret a | _ => TypeError end.

(** [Object.entries(args)] *)
Definition Object_entries (args : ref) : Run (list (string * ref)) :=
  run o <- load args;;
  match o with O_args entries => run_ret entries | _ => TypeError end.

(** *** Statements *)

(** [array.push(x)] *)
Definition array_push (array : ref) (x : string) : Run unit :=
  run o <- load array;;
  match o with
  | O_strings items => store array (O_strings (items ++ [x]))
  | _ => TypeError
  end.

(** [portfolio.accounts.byId[k] = []] *)
Definition heap_accounts_byId_set (portfolio : ref) (k : CAIP10) : Run unit :=
  run accounts <- portfolio_accounts portfolio;;
  run byId <- index_byId accounts;;
  run array <- alloc (O_strings []);;
  run o <- load byId;;
  match o with
  | O_accounts_byId props => store byId (O_accounts_byId (<[k := array]> props))
  | _ => TypeError
  end.

(** [portfolio.accounts.ids.push(k)] *)
Definition heap_accounts_ids_push (portfolio : ref) (k : CAIP10) : Run unit :=
  run accounts <- portfolio_accounts portfolio;;
  run ids <- index_ids accounts;;
  array_push ids k.

(** [portfolio.accounts.byId[k].push(id)]: [push] of [undefined] throws. *)
Definition heap_accounts_byId_push (portfolio : ref) (k : CAIP10) (id : CAIP19) : Run unit :=
  run accounts <- portfolio_accounts portfolio;;
  run byId <- index_byId accounts;;
  run o <- load byId;;
  match o with
  | O_accounts_byId props =>
      match props !! k with
      | Some array => array_push array id
      | None => TypeError
      end
  | _ => TypeError
  end.

(** [portfolio.balances.ids.push(id)] *)
Definition heap_balances_ids_push (portfolio : ref) (id : CAIP19) : Run unit :=
  run balances <- portfolio_balances portfolio;;
  run ids <- index_ids balances;;
  array_push ids id.

(** [portfolio.balances.byId[id] = b] *)
Definition heap_balances_byId_set (portfolio : ref) (id : CAIP19) (b : string) : Run unit :=
  run balances <- portfolio_balances portfolio;;
  run byId <- index_byId balances;;
  run o <- load byId;;
  match o with
  | O_balances_byId props => store byId (O_balances_byId (<[id := b]> props))
  | _ => TypeError
  end.

(** *** [cloneDeep] at the type [Portfolio] *)

Definition clone_strings (array : ref) : Run ref :=
  run o <- load array;;
  match o with O_strings items => alloc (O_strings items) | _ => TypeError end.

Definition clone_byId (byId : ref) : Run ref :=
  run o <- load byId;;
  match o with
  | O_balances_byId props => alloc (O_balances_byId props)
  | O_accounts_byId props =>
      run props' <- run_map (λ kv, run array <- clone_strings kv.2;; run_ret (kv.1, array))
                            (map_to_list props);;
      alloc (O_accounts_byId (list_to_map props'))
  | _ => TypeError
  end.

Definition clone_index (index : ref) : Run ref :=
  run o <- load index;;
  match o with
  | O_index byId ids =>
      run byId' <- clone_byId byId;;
      run ids' <- clone_strings ids;;
      alloc (O_index byId' ids')
  | _ => TypeError
  end.

Definition cloneDeep (portfolio : ref) : Run ref :=
  run o <- load portfolio;;
  match o with
  | O_portfolio accounts balances =>
      run accounts' <- clone_index accounts;;
      run balances' <- clone_index balances;;
      alloc (O_portfolio accounts' balances')
  | _ => TypeError
  end.

(** The sum of line 121 over the address objects. *)
Definition heap_totalSats (addrs : list ref) : Run BigNumber.t :=
  run_reduce
    (λ acc cur, run address <- load_address cur;;
                run_ret (BigNumber.plus acc (bnOrZero (V_optional (address_balance address)))))
    addrs (bn (V_number 0)).

Section normalizer_heap.

Variable toCAIP19 : ToCAIP19Args → CAIP19.

(** The callback of [tokens.forEach], lines 105-113: line 106 reads the
    token object. *)
Definition heap_forEach_token (chain : ChainTypes) (network : NetworkTypes) (k : CAIP10)
    (portfolio : ref) (token_ref : ref) : Run unit :=
  run token <- load_token token_ref;;
  let id := tokenCAIP19 toCAIP19 chain network token in
  run _u <- heap_accounts_byId_push portfolio k id;;
  run _u <- heap_balances_ids_push portfolio id;;
  heap_balances_byId_set portfolio id (token_balance token).

(** The callback of [Object.entries(args).forEach], lines 92-135, statement
    by statement.  [account] is a reference: line 93 reads [chain] and
    [network] from it, lines 102, 103 and 119 read it again, and every
    assignment and [push] finds its target from [portfolio]. *)
Definition heap_forEach_account (portfolio : ref) (entry : CAIP10 * ref) : Run unit :=
  let '(k, account) := entry in
  run cell <- load_account account;;
  run _u <- heap_accounts_byId_set portfolio k;;
  run _u <- heap_accounts_ids_push portfolio k;;
  match cell_chain cell with
  | Ethereum =>
      let ethCAIP19 := nativeCAIP19 toCAIP19 (cell_chain cell) (cell_network cell) in
      run _u <- heap_accounts_byId_push portfolio k ethCAIP19;;
      run _u <- heap_balances_ids_push portfolio ethCAIP19;;
      run ethAccount <- load_account account;;
      run _u <- heap_balances_byId_set portfolio ethCAIP19 (cell_balance ethAccount);;
      run chainSpecific <- load_chainSpecific (cell_chainSpecific ethAccount);;
      match chainSpecific.1 with
      | None => run_ret tt
      | Some tokens =>
          run toks <- load_objects tokens;;
          run_forEach toks
            (heap_forEach_token (cell_chain cell) (cell_network cell) k portfolio)
      end
  | Bitcoin =>
      let btcCAIP19 := nativeCAIP19 toCAIP19 (cell_chain cell) (cell_network cell) in
      run btcAccount <- load_account account;;
      run chainSpecific <- load_chainSpecific (cell_chainSpecific btcAccount);;
      run addrs <- match chainSpecific.2 with
                   | None => run_ret []
                   | Some addresses => load_objects addresses
                   end;;
      run total <- heap_totalSats addrs;;
      let bal := BigNumber.toString (BigNumber.decimalPlaces 0 total) in
      run _u <- heap_accounts_byId_push portfolio k btcCAIP19;;
      run _u <- heap_balances_byId_set portfolio btcCAIP19 bal;;
      heap_balances_ids_push portfolio btcCAIP19
  | OtherChain _ => run_ret tt
  end.

(** Lines 89-138: [initialState] is the module's object, [args] the
    caller's; the result is the reference [cloneDeep] returned. *)
Definition accountsToPortfolio_heap (initialState_ref args : ref) : Run ref :=
  run portfolio <- cloneDeep initialState_ref;;
  run entries <- Object_entries args;;
  run _u <- run_forEach entries (heap_forEach_account portfolio);;
  run_ret portfolio.

End normalizer_heap.

(** *** What a heap holds *)

Definition as_strings (o : option Object) : option (list string) :=
  match o with Some (O_strings items) => Some items | _ => None end.

(** The portfolio an object graph stands for, if it is one. *)
Definition read_portfolio (h : Heap) (r : ref) : option Portfolio :=
  match h !! r with
  | Some (O_portfolio ra rb) =>
      match h !! ra, h !! rb with
      | Some (O_index rab rai), Some (O_index rbb rbi) =>
          match h !! rab, h !! rai, h !! rbb, h !! rbi with
          | Some (O_accounts_byId m), Some (O_strings ai),
            Some (O_balances_byId bm), Some (O_strings bi) =>
              if decide (map_Forall (λ _ array, is_Some (as_strings (h !! array))) m)
              then Some {| accounts :=
                             PortfolioAccounts.mk (omap (λ array, as_strings (h !! array)) m) ai;
                           balances := PortfolioBalances.mk bm bi |}
              else None
          | _, _, _, _ => None
          end
      | _, _ => None
      end
  | _ => None
  end.

(** The objects of a portfolio graph. *)
Definition portfolio_refs (h : Heap) (r : ref) : list ref :=
  match h !! r with
  | Some (O_portfolio ra rb) =>
      match h !! ra, h !! rb with
      | Some (O_index rab rai), Some (O_index rbb rbi) =>
          match h !! rab with
          | Some (O_accounts_byId m) => [r; ra; rb; rab; rai; rbb; rbi] ++ (map_to_list m).*2
          | _ => [r; ra; rb; rab; rai; rbb; rbi]
          end
      | _, _ => [r]
      end
  | _ => [r]
  end.

(** The module's [initialState] as line 61 declares it. *)
Definition holds_initialState (h : Heap) (r : ref) : Prop :=
  ∃ ra rb rab rai rbb rbi,
    h !! r = Some (O_portfolio ra rb)
    ∧ h !! ra = Some (O_index rab rai)
    ∧ h !! rb = Some (O_index rbb rbi)
    ∧ h !! rab = Some (O_accounts_byId ∅)
    ∧ h !! rai = Some (O_strings [])
    ∧ h !! rbb = Some (O_balances_byId ∅)
    ∧ h !! rbi = Some (O_strings []).

(** An optional array of objects in the heap and the list it stands for. *)
Definition holds_array {A} (cell : A → Object) (h : Heap)
    (o : option ref) (l : option (list A)) : Prop :=
  match o, l with
  | None, None => True
  | Some r, Some xs =>
      ∃ rs, h !! r = Some (O_objects rs) ∧ Forall2 (λ r x, h !! r = Some (cell x)) rs xs
  | _, _ => False
  end.

(** An account object in the heap and the record it stands for. *)
Definition holds_account (h : Heap) (r : ref) (a : Account) : Prop :=
  ∃ cs t ad,
    h !! r = Some (O_account {| cell_balance := balance a; cell_pubkey := pubkey a;
                                cell_chain := chain a; cell_network := network a;
                                cell_chainSpecific := cs |})
    ∧ h !! cs = Some (O_chainSpecific t ad)
    ∧ holds_array O_token h t (tokens (chainSpecific a))
    ∧ holds_array O_address h ad (addresses (chainSpecific a)).

(** The argument object in the heap and the entries it stands for. *)
Definition holds_args (h : Heap) (r : ref) (args : list (string * Account)) : Prop :=
  ∃ entries,
    h !! r = Some (O_args entries)
    ∧ Forall2 (λ e ea, e.1 = ea.1 ∧ holds_account h e.2 ea.2) entries args.

(** The part of the heap a call allocates: the seven objects of the clone,
    then the asset lists in the order they were made.  [m] gives the place
    of each account's list among them. *)
Definition region (base : nat) (p : Portfolio) (m : gmap string nat)
    (arrays : list (list string)) : Heap :=
  [ O_accounts_byId ((λ i, base + (7 + i)) <$> m);
    O_strings (PortfolioAccounts.ids (accounts p));
    O_index (base + 0) (base + 1);
    O_balances_byId (PortfolioBalances.byId (balances p));
    O_strings (PortfolioBalances.ids (balances p));
    O_index (base + 3) (base + 4);
    O_portfolio (base + 2) (base + 5) ]
  ++ (O_strings <$> arrays).

Definition fits (byId : gmap string (list string)) (m : gmap string nat)
    (arrays : list (list string)) : Prop :=
  (∀ k, byId !! k = m !! k ≫= (arrays !!.))
  ∧ (∀ k i, m !! k = Some i → i < length arrays)
  ∧ (∀ k1 k2 i, m !! k1 = Some i → m !! k2 = Some i → k1 = k2).

(** The heap after some statements of a call: the caller's heap [h0], then
    the objects of the call, which stand for [p]. *)
Definition rep (h0 : Heap) (p : Portfolio) (h : Heap) : Prop :=
  ∃ m arrays, h = h0 ++ region (length h0) p m arrays
              ∧ fits (PortfolioAccounts.byId (accounts p)) m arrays.

(** A heap with the module's [initialState] at 6 and [sample_args] at 20. *)
Definition sample_heap : Heap :=
  [ O_accounts_byId ∅; O_strings []; O_index 0 1;
    O_balances_byId ∅; O_strings []; O_index 3 4;
    O_portfolio 2 5;
    O_token {| token_balance := "7"; token_contract := "0xAbC1";
               token_contractType := "ERC20" |};
    O_token {| token_balance := "9"; token_contract := "0xDeF2";
               token_contractType := "ERC20" |};
    O_objects [7; 8];
    O_chainSpecific (Some 9) None;
    O_account {| cell_balance := "1000"; cell_pubkey := "0xF00"; cell_chain := Ethereum;
                 cell_network := "MAINNET"; cell_chainSpecific := 10 |};
    O_chainSpecific None None;
    O_account {| cell_balance := "5"; cell_pubkey := "cosmos1";
                 cell_chain := OtherChain "cosmos";
                 cell_network := "MAINNET"; cell_chainSpecific := 12 |};
    O_address {| address_pubkey := "bc1a"; address_balance := Some "100" |};
    O_address {| address_pubkey := "bc1b"; address_balance := Some "250" |};
    O_address {| address_pubkey := "bc1c"; address_balance := Some "0" |};
    O_objects [14; 15; 16];
    O_chainSpecific None (Some 17);
    O_account {| cell_balance := "350"; cell_pubkey := "xpub1"; cell_chain := Bitcoin;
                 cell_network := "MAINNET"; cell_chainSpecific := 18 |};
    O_args [("eip155:1:0xF00", 11); ("cosmos:1:cosmos1", 13); ("bip122:1:xpub1", 19)] ].

(** * Facts *)

Import BigNumber.

(** ** The decimal type on examples *)

Example of_string_fraction : of_string "2.00" = Fin (mkDec 200 2).
Proof. reflexivity. Qed.

Example of_string_negative_exponent : of_string "-.5e-1" = Fin (mkDec (-5) 2).
Proof. reflexivity. Qed.

Example of_string_exponent : of_string "12.5e3" = Fin (mkDec 12500 0).
Proof. reflexivity. Qed.

Example of_string_trailing_point : of_string "12." = Fin (mkDec 12 0).
Proof. reflexivity. Qed.

Example of_string_invalid :
  of_string "." = NaN ∧ of_string "12abc" = NaN ∧ of_string "" = NaN ∧ of_string "1e" = NaN.
Proof. repeat split. Qed.

Example toFixed_half_up : toFixed 2 (Fin (mkDec 1005 3)) = "1.01".
Proof. reflexivity. Qed.

Example toFixed_negative : toFixed 2 (Fin (mkDec (-1) 3)) = "-0.00".
Proof. reflexivity. Qed.

Example toFixed_pads : toFixed 2 (Fin (mkDec 3 0)) = "3.00".
Proof. reflexivity. Qed.

Example toString_strips_zeros : toString (Fin (mkDec 1500 3)) = "1.5".
Proof. reflexivity. Qed.

Example toString_small : toString (Fin (mkDec 1 8)) = "1e-8" ∧ toString (Fin (mkDec 1 6)) = "0.000001".
Proof. split; reflexivity. Qed.

Example toString_large : toString (Fin (mkDec (12 * 10 ^ 20) 0)) = "1.2e+21".
Proof. reflexivity. Qed.

Example toString_whole : toString (Fin (mkDec 350 0)) = "350".
Proof. reflexivity. Qed.

(** ** Decimals denote rationals *)

Lemma pow10_pos n : (0 < pow10 n)%Z.
Proof. unfold pow10. apply Z.pow_pos_nonneg; lia. Qed.

Lemma pow10_add a b : pow10 (a + b) = (pow10 a * pow10 b)%Z.
Proof. unfold pow10. rewrite Nat2Z.inj_add, Z.pow_add_r; lia. Qed.

Lemma pow10_den n : Z.pos (Z.to_pos (pow10 n)) = pow10 n.
Proof. apply Z2Pos.id, pow10_pos. Qed.

Lemma pow10_split s d : d ≤ s → pow10 s = (pow10 d * pow10 (s - d))%Z.
Proof. intros H. rewrite <- pow10_add. f_equal. lia. Qed.

Lemma value_plus a b : (value (plus_dec a b) == value a + value b)%Q.
Proof.
  unfold value, plus_dec, Qeq, Qplus; cbn [Qnum Qden mant dp].
  rewrite Pos2Z.inj_mul, !pow10_den.
  set (s := Nat.max (dp a) (dp b)).
  assert (E1 : pow10 s = (pow10 (dp a) * pow10 (s - dp a))%Z) by (apply pow10_split; lia).
  assert (E2 : pow10 s = (pow10 (dp b) * pow10 (s - dp b))%Z) by (apply pow10_split; lia).
  transitivity (mant a * pow10 (dp b) * (pow10 (dp a) * pow10 (s - dp a))
                + mant b * pow10 (dp a) * (pow10 (dp b) * pow10 (s - dp b)))%Z;
    [ring | rewrite <- E1, <- E2; ring].
Qed.

Lemma value_times a b : (value (times_dec a b) == value a * value b)%Q.
Proof.
  unfold value, times_dec, Qeq, Qmult; cbn [Qnum Qden mant dp].
  rewrite Pos2Z.inj_mul, !pow10_den, pow10_add. ring.
Qed.

Lemma value_shift a n :
  (value (mkDec (mant a) (dp a + n)) * inject_Z (pow10 n) == value a)%Q.
Proof.
  unfold value, Qeq, Qmult, inject_Z; cbn [Qnum Qden mant dp].
  rewrite Pos2Z.inj_mul, !pow10_den, pow10_add. change (Z.pos 1) with 1%Z. ring.
Qed.

Lemma value_zero : (value (mkDec 0 0) == 0)%Q.
Proof. reflexivity. Qed.

(** Rounding *)
Lemma Qround_half_up_comp q r : (q == r)%Q → Qround_half_up q = Qround_half_up r.
Proof.
  intros E. unfold Qround_half_up. f_equal.
  - unfold Qeq in E. destruct q as [qn qd], r as [rn rd]; cbn [Qnum Qden] in *.
    destruct qn, rn; cbn in *; try reflexivity; lia.
  - apply Qfloor_comp. rewrite E. reflexivity.
Qed.

Lemma Qround_half_up_Z z : Qround_half_up (inject_Z z) = z.
Proof.
  unfold Qround_half_up, inject_Z, Qabs, Qplus, Qfloor; cbn [Qnum Qden].
  change (Z.pos (1 * 2)) with 2%Z.
  replace ((Z.abs z * 2 + 1 * 1) / 2)%Z with (Z.abs z).
  - lia.
  - apply Z.div_unique with (r := 1%Z); lia.
Qed.

Lemma Qround_half_up_frac m k :
  (0 < k)%nat → Qround_half_up (m # Z.to_pos (pow10 k)) = round_half_up m k.
Proof.
  intros Hk. unfold Qround_half_up, round_half_up. cbn [Qnum]. f_equal.
  unfold Qabs, Qplus, Qfloor; cbn [Qnum Qden].
  rewrite Pos2Z.inj_mul, pow10_den.
  assert (E : pow10 k = (2 * (pow10 k / 2))%Z).
  { destruct k as [|k]; [lia|]. replace (S k) with (1 + k) by lia. rewrite pow10_add.
    change (pow10 1) with 10%Z.
    replace (10 * pow10 k)%Z with (5 * pow10 k * 2)%Z by ring.
    rewrite Z.div_mul by lia. ring. }
  pose proof (pow10_pos k).
  set (h := (pow10 k / 2)%Z) in *.
  rewrite E. 
  replace (Z.abs m * 2 + 1 * (2 * h))%Z with ((Z.abs m + h) * 2)%Z by ring.
  rewrite Z.div_mul_cancel_r by lia. reflexivity.
Qed.

Lemma rescale_spec n a :
  rescale n a = Qround_half_up (value a * inject_Z (pow10 n))%Q.
Proof.
  unfold rescale. destruct (Nat.leb_spec (dp a) n) as [H|H].
  - rewrite <- (Qround_half_up_Z (mant a * pow10 (n - dp a))).
    apply Qround_half_up_comp.
    unfold value, Qeq, Qmult, inject_Z; cbn [Qnum Qden].
    rewrite Pos2Z.inj_mul, pow10_den, (pow10_split n (dp a)) by lia. 
    change (Z.pos 1) with 1%Z. ring.
  - rewrite <- Qround_half_up_frac by lia.
    apply Qround_half_up_comp.
    unfold value, Qeq, Qmult, inject_Z; cbn [Qnum Qden].
    rewrite Pos2Z.inj_mul, !pow10_den, (pow10_split (dp a) n) by lia. 
    change (Z.pos 1) with 1%Z. ring.
Qed.

Lemma decimalPlaces_0 a : decimalPlaces 0 (Fin a) = Fin (mkDec (rescale 0 a) 0).
Proof.
  destruct a as [m d]. unfold decimalPlaces, rescale; cbn [dp mant].
  destruct d as [|d]; cbn [Nat.leb]; [|reflexivity].
  change (pow10 (0 - 0)) with 1%Z. rewrite Z.mul_1_r. reflexivity.
Qed.

(** ** Reading back a printed whole number *)

Ltac eval_digit :=
  match goal with
  | |- context [digit_of_ascii ?c] =>
      let v := eval vm_compute in (digit_of_ascii c) in
      change (digit_of_ascii c) with v; cbv iota beta
  end.

Lemma scan_digits_acc d p cnt :
  scan_digits (NilEmpty.string_of_uint d) (Z.pos p) cnt
  = (Z.pos (Pos.of_uint_acc d p), cnt + Decimal.nb_digits d, EmptyString).
Proof.
  revert p cnt.
  induction d; intros p cnt;
    cbn [NilEmpty.string_of_uint scan_digits Pos.of_uint_acc Decimal.nb_digits];
    [by rewrite Nat.add_0_r|..];
    eval_digit;
    match goal with
    | |- scan_digits _ ?z _ = (Z.pos (Pos.of_uint_acc _ ?q), _, _) =>
        replace z with (Z.pos q) by lia
    end;
    rewrite IHd; do 2 f_equal; lia.
Qed.

Lemma scan_digits_uint d cnt :
  scan_digits (NilEmpty.string_of_uint d) 0 cnt
  = (Z.of_N (Pos.of_uint d), cnt + Decimal.nb_digits d, EmptyString).
Proof.
  revert cnt.
  induction d; intros cnt;
    cbn [NilEmpty.string_of_uint scan_digits Pos.of_uint Decimal.nb_digits];
    [by rewrite Nat.add_0_r|..];
    eval_digit.
  1: { change (10 * 0 + 0)%Z with 0%Z. rewrite IHd. do 2 f_equal; lia. }
  all: match goal with
       | |- scan_digits _ ?z _ = _ =>
           let v := eval vm_compute in z in change z with v
       end;
       rewrite scan_digits_acc; cbn [Z.of_N]; do 2 f_equal; lia.
Qed.

(** A text that starts with a digit and is digits throughout reads as the
    whole number it spells. *)
Lemma of_string_whole s v n :
  scan_digits s 0 0 = (v, S n, EmptyString) → of_string s = Fin (mkDec v 0).
Proof.
  intros Hscan. unfold of_string. destruct s as [|c s]; [discriminate|].
  assert (Hc : Ascii.eqb c "-" = false).
  { destruct (Ascii.eqb_spec c "-") as [->|]; [|reflexivity].
    cbn in Hscan. discriminate. }
  rewrite Hc, Hscan. cbn [Nat.add Nat.eqb scan_exponent].
  change (Z.of_nat 0 <=? 0)%Z with true. cbv iota.
  change (10 ^ (0 - Z.of_nat 0))%Z with 1%Z. by rewrite Z.mul_1_r.
Qed.

Lemma of_string_digits u : (0 ≤ u)%Z → of_string (digits u) = Fin (mkDec u 0).
Proof.
  intros Hu. unfold digits.
  pose proof (DecimalN.Unsigned.of_to (Z.to_N u)) as Hd.
  set (d := N.to_uint (Z.to_N u)) in *.
  assert (Hs : NilZero.string_of_uint d = NilEmpty.string_of_uint d ∧ Decimal.nb_digits d ≠ 0).
  { subst d. destruct (Z.to_N u); [by split|].
    unfold N.of_uint in Hd. destruct (N.to_uint (N.pos p)); [discriminate|..]; by split. }
  destruct Hs as [-> Hn].
  destruct (Decimal.nb_digits d) as [|n] eqn:En; [done|].
  apply (of_string_whole _ _ n).
  rewrite scan_digits_uint, En. unfold N.of_uint in Hd. rewrite Hd. f_equal. f_equal. lia.
Qed.

(** ** The helpers of [lib/bignumber] *)

Lemma bnOrZero_coerced o :
  ∃ a, bnOrZero (V_optional o) = Fin a ∧ (value a == coerced_value o)%Q.
Proof.
  unfold bnOrZero, coerced_value. destruct o as [s|]; cbn [V_optional bn].
  - destruct (of_string s) as [|a]; cbn [isFinite].
    + exists (mkDec 0 0). split; [reflexivity|apply value_zero].
    + exists a. split; reflexivity.
  - cbn [isFinite]. exists (mkDec 0 0). split; [reflexivity|apply value_zero].
Qed.

Lemma totalSats_fold addrs a0 :
  ∃ a, foldl (λ acc cur, plus acc (bnOrZero (V_optional (address_balance cur)))) (Fin a0) addrs
       = Fin a
       ∧ (value a == value a0 + spec_totalSats addrs)%Q.
Proof.
  revert a0. induction addrs as [|cur addrs IH]; intros a0; cbn [foldl foldr spec_totalSats].
  - exists a0. split; [reflexivity|ring].
  - destruct (bnOrZero_coerced (address_balance cur)) as (b & -> & Hb).
    cbn [plus]. destruct (IH (plus_dec a0 b)) as (a & -> & Ha).
    exists a. split; [reflexivity|].
    rewrite Ha, value_plus, Hb. unfold spec_totalSats. ring.
Qed.

Lemma totalSats_spec addrs :
  decimalPlaces 0 (totalSats addrs) = Fin (mkDec (Qround_half_up (spec_totalSats addrs)) 0).
Proof.
  unfold totalSats. cbn [bn].
  destruct (totalSats_fold addrs (mkDec 0 0)) as (a & -> & Ha).
  rewrite decimalPlaces_0, rescale_spec. do 2 f_equal.
  apply Qround_half_up_comp. rewrite Ha, value_zero.
  change (inject_Z (pow10 0)) with 1%Q. ring.
Qed.

(** ** Lowercasing *)

Lemma lower_ascii_idemp c : lower_ascii (lower_ascii c) = lower_ascii c.
Proof. destruct c as [[] [] [] [] [] [] [] []]; reflexivity. Qed.

Lemma toLowerCase_idemp s : toLowerCase (toLowerCase s) = toLowerCase s.
Proof.
  induction s as [|c s IH]; cbn [toLowerCase]; [reflexivity|].
  by rewrite lower_ascii_idemp, IH.
Qed.

(** ** Recording assets *)

Lemma insert_all_app ws1 ws2 m : insert_all (ws1 ++ ws2) m = insert_all ws2 (insert_all ws1 m).
Proof. unfold insert_all. apply foldl_app. Qed.

Lemma dom_insert_all ws m : dom (insert_all ws m) = dom m ∪ list_to_set ws.*1.
Proof.
  revert m. induction ws as [|w ws IH]; intros m; cbn.
  - set_solver.
  - unfold insert_all in IH. rewrite IH, dom_insert_L. set_solver.
Qed.

(** The last recording of an identifier is the one that stays. *)
Lemma lookup_insert_all_last ws1 id b ws2 m :
  id ∉ ws2.*1 → insert_all (ws1 ++ (id, b) :: ws2) m !! id = Some b.
Proof.
  intros Hid. rewrite insert_all_app. cbn.
  generalize (insert_all ws1 m). intros m'.
  change (foldl (λ m0 w, <[w.1:=w.2]> m0) (<[id:=b]> m') ws2) with (insert_all ws2 (<[id:=b]> m')).
  assert (H : <[id:=b]> m' !! id = Some b) by apply lookup_insert_eq.
  revert H. generalize (<[id:=b]> m'). clear m'.
  induction ws2 as [|w ws2 IH]; intros m' H; cbn; [exact H|].
  apply IH; [set_solver|]. rewrite lookup_insert_ne; [exact H|set_solver].
Qed.

Lemma record_asset_balances_ids k ws p :
  PortfolioBalances.ids (balances (foldl (record_asset k) p ws))
  = PortfolioBalances.ids (balances p) ++ ws.*1.
Proof.
  revert p. induction ws as [|w ws IH]; intros p; cbn [foldl fmap list_fmap].
  - by rewrite app_nil_r.
  - rewrite IH. cbn. by rewrite <- app_assoc.
Qed.

Lemma record_asset_balances_byId k ws p :
  PortfolioBalances.byId (balances (foldl (record_asset k) p ws))
  = insert_all ws (PortfolioBalances.byId (balances p)).
Proof.
  revert p. induction ws as [|w ws IH]; intros p; cbn [foldl]; [reflexivity|].
  by rewrite IH.
Qed.

Lemma record_asset_accounts_ids k ws p :
  PortfolioAccounts.ids (accounts (foldl (record_asset k) p ws))
  = PortfolioAccounts.ids (accounts p).
Proof.
  revert p. induction ws as [|w ws IH]; intros p; cbn [foldl]; [reflexivity|].
  by rewrite IH.
Qed.

Lemma record_asset_accounts_byId k ws p :
  PortfolioAccounts.byId (accounts (foldl (record_asset k) p ws))
  = alter (λ l, l ++ ws.*1) k (PortfolioAccounts.byId (accounts p)).
Proof.
  revert p. induction ws as [|w ws IH]; intros p; cbn [foldl fmap list_fmap].
  - symmetry. apply alter_id. intros l _. apply app_nil_r.
  - rewrite IH. cbn. rewrite alter_alter_eq. apply alter_ext.
    intros l _. cbn. by rewrite <- app_assoc.
Qed.

Section normalizer_facts.

Variable toCAIP19 : ToCAIP19Args → CAIP19.

(** The callback of [forEach] registers the account, then records what
    [recorded] lists, in order. *)
Lemma forEach_account_recorded p k a :
  forEach_account toCAIP19 p (k, a)
  = foldl (record_asset k) (accounts_ids_push k (accounts_byId_set k [] p)) (recorded toCAIP19 a).
Proof.
  unfold forEach_account, recorded. destruct (chain a) eqn:Hc.
  - destruct (tokens (chainSpecific a)) as [toks|]; cbn [default foldl]; [|reflexivity].
    rewrite foldl_fmap. reflexivity.
  - cbn [foldl]. rewrite totalSats_spec. reflexivity.
  - reflexivity.
Qed.

Lemma forEach_account_balances_ids p k a :
  PortfolioBalances.ids (balances (forEach_account toCAIP19 p (k, a)))
  = PortfolioBalances.ids (balances p) ++ (recorded toCAIP19 a).*1.
Proof. rewrite forEach_account_recorded, record_asset_balances_ids. reflexivity. Qed.

Lemma forEach_account_balances_byId p k a :
  PortfolioBalances.byId (balances (forEach_account toCAIP19 p (k, a)))
  = insert_all (recorded toCAIP19 a) (PortfolioBalances.byId (balances p)).
Proof. rewrite forEach_account_recorded, record_asset_balances_byId. reflexivity. Qed.

Lemma forEach_account_accounts_ids p k a :
  PortfolioAccounts.ids (accounts (forEach_account toCAIP19 p (k, a)))
  = PortfolioAccounts.ids (accounts p) ++ [k].
Proof. rewrite forEach_account_recorded, record_asset_accounts_ids. reflexivity. Qed.

Lemma forEach_account_accounts_byId p k a :
  PortfolioAccounts.byId (accounts (forEach_account toCAIP19 p (k, a)))
  = <[k := (recorded toCAIP19 a).*1]> (PortfolioAccounts.byId (accounts p)).
Proof.
  rewrite forEach_account_recorded, record_asset_accounts_byId. cbn.
  by rewrite alter_insert_eq.
Qed.

Lemma recordings_cons k a args :
  recordings toCAIP19 ((k, a) :: args) = recorded toCAIP19 a ++ recordings toCAIP19 args.
Proof. reflexivity. Qed.

(** The whole loop, component by component. *)
Lemma fold_balances_ids args p :
  PortfolioBalances.ids (balances (foldl (forEach_account toCAIP19) p args))
  = PortfolioBalances.ids (balances p) ++ (recordings toCAIP19 args).*1.
Proof.
  revert p. induction args as [|[k a] args IH]; intros p; cbn [foldl].
  - cbn. by rewrite app_nil_r.
  - by rewrite IH, forEach_account_balances_ids, recordings_cons, fmap_app, app_assoc.
Qed.

Lemma fold_balances_byId args p :
  PortfolioBalances.byId (balances (foldl (forEach_account toCAIP19) p args))
  = insert_all (recordings toCAIP19 args) (PortfolioBalances.byId (balances p)).
Proof.
  revert p. induction args as [|[k a] args IH]; intros p; cbn [foldl]; [reflexivity|].
  by rewrite IH, forEach_account_balances_byId, recordings_cons, insert_all_app.
Qed.

Lemma fold_accounts_ids args p :
  PortfolioAccounts.ids (accounts (foldl (forEach_account toCAIP19) p args))
  = PortfolioAccounts.ids (accounts p) ++ args.*1.
Proof.
  revert p. induction args as [|[k a] args IH]; intros p; cbn [foldl].
  - cbn. by rewrite app_nil_r.
  - rewrite IH, forEach_account_accounts_ids. cbn. by rewrite <- app_assoc.
Qed.

Lemma fold_accounts_byId args p :
  PortfolioAccounts.byId (accounts (foldl (forEach_account toCAIP19) p args))
  = foldl (λ m e, <[e.1 := (recorded toCAIP19 e.2).*1]> m)
          (PortfolioAccounts.byId (accounts p)) args.
Proof.
  revert p. induction args as [|[k a] args IH]; intros p; cbn [foldl]; [reflexivity|].
  by rewrite IH, forEach_account_accounts_byId.
Qed.

(** An asset list in the result is the list recorded for an entry. *)
Lemma fold_accounts_byId_lookup args (m : gmap string (list string)) k l :
  foldl (λ m e, <[e.1 := (recorded toCAIP19 e.2).*1]> m) m args !! k = Some l →
  m !! k = Some l ∨ ∃ a, (k, a) ∈ args ∧ l = (recorded toCAIP19 a).*1.
Proof.
  revert m. induction args as [|[k' a] args IH]; intros m; cbn [foldl]; [by left|].
  intros [H|(a' & Hin & ->)]%IH.
  - cbn in H. destruct (decide (k' = k)) as [->|Hne].
    + rewrite lookup_insert_eq in H. injection H as <-.
      right. exists a. split; [left|reflexivity].
    + rewrite lookup_insert_ne in H by done. by left.
  - right. exists a'. split; [by right|reflexivity].
Qed.

(** The asset list of the last entry with key [k]. *)
Lemma fold_accounts_byId_last args1 k a args2 (m : gmap string (list string)) :
  k ∉ args2.*1 →
  foldl (λ m e, <[e.1 := (recorded toCAIP19 e.2).*1]> m) m (args1 ++ (k, a) :: args2) !! k
  = Some (recorded toCAIP19 a).*1.
Proof.
  intros Hk. rewrite foldl_app. cbn [foldl].
  generalize (foldl (λ m e, <[e.1 := (recorded toCAIP19 e.2).*1]> m) m args1). intros m'.
  cbn. assert (H : <[k:=(recorded toCAIP19 a).*1]> m' !! k = Some (recorded toCAIP19 a).*1)
    by apply lookup_insert_eq.
  revert H. generalize (<[k:=(recorded toCAIP19 a).*1]> m'). clear m'.
  induction args2 as [|[k' a'] args2 IH]; intros m' H; cbn [foldl]; [exact H|].
  apply IH; [set_solver|]. cbn. rewrite lookup_insert_ne; [exact H|set_solver].
Qed.

Lemma recorded_in_recordings k a args :
  (k, a) ∈ args → (recorded toCAIP19 a).*1 ⊆ (recordings toCAIP19 args).*1.
Proof.
  intros Hin id Hid. unfold recordings.
  apply list_elem_of_fmap in Hid as (w & -> & Hw).
  apply list_elem_of_fmap. exists w. split; [reflexivity|].
  apply list_elem_of_bind. exists (k, a). by split.
Qed.

Lemma recordings_app args1 args2 :
  recordings toCAIP19 (args1 ++ args2)
  = recordings toCAIP19 args1 ++ recordings toCAIP19 args2.
Proof. unfold recordings. apply bind_app. Qed.

(** C1.  In the portfolio [accountsToPortfolio] returns, every asset
    identifier in the asset list of an account is a key of the balances
    index. *)
Theorem accountsToPortfolio_assets_have_balances
    (args : list (string * Account)) (accountId : string) (assetIds : list string)
    (assetId : string) :
  PortfolioAccounts.byId (accounts (accountsToPortfolio toCAIP19 args)) !! accountId
    = Some assetIds →
  assetId ∈ assetIds →
  is_Some (PortfolioBalances.byId (balances (accountsToPortfolio toCAIP19 args)) !! assetId).
Proof.
  unfold accountsToPortfolio. rewrite fold_accounts_byId, fold_balances_byId.
  intros Hl Hin. apply fold_accounts_byId_lookup in Hl as [Hl|(a & Ha & ->)].
  - cbn in Hl. by rewrite lookup_empty in Hl.
  - apply elem_of_dom. rewrite dom_insert_all.
    apply elem_of_union_r, elem_of_list_to_set.
    by eapply recorded_in_recordings.
Qed.

(** C3, as amended.  An identifier occurs in [balances.ids] of the returned
    portfolio exactly when it is a key of [balances.byId]; the list has one
    occurrence per recording, so it can hold an identifier twice. *)
Theorem accountsToPortfolio_balance_ids_are_keys
    (args : list (string * Account)) (assetId : string) :
  assetId ∈ PortfolioBalances.ids (balances (accountsToPortfolio toCAIP19 args))
  ↔ is_Some (PortfolioBalances.byId (balances (accountsToPortfolio toCAIP19 args)) !! assetId).
Proof.
  unfold accountsToPortfolio. rewrite fold_balances_ids, fold_balances_byId.
  cbn [initialState balances PortfolioBalances.ids PortfolioBalances.byId app].
  rewrite <- elem_of_dom, dom_insert_all, dom_empty_L, elem_of_union, elem_of_list_to_set.
  split; [by right|]. intros [H|H]; [|done]. by apply elem_of_empty in H.
Qed.

Lemma wf_args_later (args1 : list (string * Account)) k a args2 :
  wf_args (args1 ++ (k, a) :: args2) → k ∉ args2.*1.
Proof.
  unfold wf_args. rewrite fmap_app, fmap_cons. intros H.
  apply NoDup_app in H as (_ & _ & H). by apply NoDup_cons in H as [H _].
Qed.

Lemma recorded_other a : chain a ≠ Ethereum → chain a ≠ Bitcoin → recorded toCAIP19 a = [].
Proof. unfold recorded. by destruct (chain a). Qed.

Lemma PortfolioBalances_eq (x y : PortfolioBalances.t) :
  PortfolioBalances.byId x = PortfolioBalances.byId y →
  PortfolioBalances.ids x = PortfolioBalances.ids y → x = y.
Proof. destruct x, y; cbn. by intros -> ->. Qed.

(** C4, as amended.  A record whose chain kind is neither Ethereum nor
    Bitcoin adds no balance entry and no asset identifier: the balances
    index is the one the other records give.  Its account is registered all
    the same, with an empty asset list. *)
Theorem accountsToPortfolio_other_chain
    (args1 : list (string * Account)) (k : string) (a : Account)
    (args2 : list (string * Account)) :
  chain a ≠ Ethereum → chain a ≠ Bitcoin →
  wf_args (args1 ++ (k, a) :: args2) →
  balances (accountsToPortfolio toCAIP19 (args1 ++ (k, a) :: args2))
    = balances (accountsToPortfolio toCAIP19 (args1 ++ args2))
  ∧ PortfolioAccounts.byId (accounts (accountsToPortfolio toCAIP19 (args1 ++ (k, a) :: args2)))
      !! k = Some []
  ∧ k ∈ PortfolioAccounts.ids (accounts (accountsToPortfolio toCAIP19 (args1 ++ (k, a) :: args2))).
Proof.
  intros He Hb Hwf. pose proof (recorded_other a He Hb) as Hrec.
  assert (Hws : recordings toCAIP19 (args1 ++ (k, a) :: args2)
                = recordings toCAIP19 (args1 ++ args2)).
  { by rewrite !recordings_app, recordings_cons, Hrec. }
  unfold accountsToPortfolio. split; [|split].
  - apply PortfolioBalances_eq.
    + by rewrite !fold_balances_byId, Hws.
    + by rewrite !fold_balances_ids, Hws.
  - rewrite fold_accounts_byId, fold_accounts_byId_last by eauto using wf_args_later.
    by rewrite Hrec.
  - rewrite fold_accounts_ids, fmap_app, fmap_cons. cbn. set_solver.
Qed.

(** The rendering of a whole number. *)
Lemma toString_integer n :
  (Z.abs n < pow10 21)%Z →
  toString (Fin (mkDec n 0)) = (if (n <? 0)%Z then "-" else "") +:+ digits (Z.abs n).
Proof.
  intros Hn. unfold toString. cbn [mant dp normalize fixed_point].
  destruct (Z.eqb_spec (Z.abs n) 0) as [H0|H0].
  - rewrite H0. destruct (Z.ltb_spec n 0); [lia|reflexivity].
  - replace (pow10 (21 + 0) <=? Z.abs n)%Z with false by (symmetry; apply Z.leb_gt; exact Hn).
    replace (Z.abs n * pow10 6 <? pow10 0)%Z with false; [reflexivity|].
    symmetry. apply Z.ltb_ge. change (pow10 0) with 1%Z. change (pow10 6) with 1000000%Z. lia.
Qed.

(** C7.  A Bitcoin record leaves exactly one asset identifier in the
    account's list, recorded with the sum of the address balances (absent
    and invalid ones counting zero) as a whole number: the sum rounded half
    up, which is the sum itself when it is whole.  Balances 100, 250 and 0
    give 350, no addresses give 0. *)
Theorem accountsToPortfolio_bitcoin
    (args1 : list (string * Account)) (k : string) (a : Account)
    (args2 : list (string * Account)) :
  chain a = Bitcoin →
  wf_args (args1 ++ (k, a) :: args2) →
  let p := accountsToPortfolio toCAIP19 (args1 ++ (k, a) :: args2) in
  let btcCAIP19 := nativeCAIP19 toCAIP19 Bitcoin (network a) in
  let addrs := default [] (addresses (chainSpecific a)) in
  let total := Qround_half_up (spec_totalSats addrs) in
  (∀ p0,
     PortfolioAccounts.byId (accounts (forEach_account toCAIP19 p0 (k, a))) !! k
       = Some [btcCAIP19]
     ∧ PortfolioBalances.byId (balances (forEach_account toCAIP19 p0 (k, a))) !! btcCAIP19
       = Some (toString (Fin (mkDec total 0))))
  ∧ PortfolioAccounts.byId (accounts p) !! k = Some [btcCAIP19]
  ∧ (btcCAIP19 ∉ (recordings toCAIP19 args2).*1 →
     PortfolioBalances.byId (balances p) !! btcCAIP19 = Some (toString (Fin (mkDec total 0))))
  ∧ (addrs = [] → toString (Fin (mkDec total 0)) = "0")
  ∧ (address_balance <$> addrs = [Some "100"; Some "250"; Some "0"] →
     toString (Fin (mkDec total 0)) = "350")
  ∧ (∀ zs : list Z,
       Forall (λ z, 0 ≤ z)%Z zs →
       address_balance <$> addrs = (λ z, Some (digits z)) <$> zs →
       total = foldr Z.add 0%Z zs
       ∧ (foldr Z.add 0%Z zs < pow10 21 →
          toString (Fin (mkDec total 0)) = digits (foldr Z.add 0%Z zs))%Z).
Proof.
  intros Hc Hwf p btcCAIP19 addrs total.
  assert (Hrec : recorded toCAIP19 a = [(btcCAIP19, toString (Fin (mkDec total 0)))]).
  { unfold recorded. by rewrite Hc. }
  assert (E : spec_totalSats addrs
              = foldr (λ o acc, (coerced_value o + acc)%Q) 0%Q (address_balance <$> addrs)).
  { unfold spec_totalSats. generalize addrs. intros l. induction l as [|x l IH]; cbn; [done|].
    by rewrite IH. }
  split; [|split; [|split; [|split; [|split]]]].
  - intros p0. rewrite forEach_account_accounts_byId, forEach_account_balances_byId, Hrec.
    split; [apply lookup_insert_eq|]. cbn. apply lookup_insert_eq.
  - subst p. unfold accountsToPortfolio.
    rewrite fold_accounts_byId, fold_accounts_byId_last by eauto using wf_args_later.
    by rewrite Hrec.
  - intros Hlast. subst p. unfold accountsToPortfolio.
    rewrite fold_balances_byId, recordings_app, recordings_cons, Hrec. cbn [app].
    by apply lookup_insert_all_last.
  - subst total. intros ->. reflexivity.
  - subst total. intros Hbal. rewrite E, Hbal. reflexivity.
  - intros zs Hzs Hbal.
    assert (Ht : total = foldr Z.add 0%Z zs).
    { subst total. rewrite <- (Qround_half_up_Z (foldr Z.add 0%Z zs)).
      apply Qround_half_up_comp. rewrite E, Hbal. clear -Hzs.
      induction Hzs as [|z zs Hz _ IH]; cbn [fmap list_fmap foldr]; [reflexivity|].
      rewrite IH, inject_Z_plus. unfold coerced_value. by rewrite of_string_digits. }
    split; [exact Ht|]. intros Hlt. rewrite Ht, toString_integer.
    + assert (0 ≤ foldr Z.add 0 zs)%Z.
      { clear -Hzs. induction Hzs; cbn; lia. }
      destruct (Z.ltb_spec (foldr Z.add 0%Z zs) 0); [lia|]. by rewrite Z.abs_eq.
    + assert (0 ≤ foldr Z.add 0 zs)%Z.
      { clear -Hzs. induction Hzs; cbn; lia. }
      lia.
Qed.

(** C8.  An Ethereum record records the native asset with the account's
    balance, then every token under its lowercased identifier with the
    token's balance, and the account's asset list is these identifiers in
    that order.  With two tokens the record adds three entries to the
    balances index and the asset list has length 3; without a token list
    there is the native entry alone. *)
Theorem accountsToPortfolio_ethereum
    (args1 : list (string * Account)) (k : string) (a : Account)
    (args2 : list (string * Account)) :
  chain a = Ethereum →
  wf_args (args1 ++ (k, a) :: args2) →
  let p := accountsToPortfolio toCAIP19 (args1 ++ (k, a) :: args2) in
  let ethCAIP19 := nativeCAIP19 toCAIP19 Ethereum (network a) in
  let toks := default [] (tokens (chainSpecific a)) in
  let tokenId := tokenCAIP19 toCAIP19 Ethereum (network a) in
  let writes := (ethCAIP19, balance a) :: ((λ t, (tokenId t, token_balance t)) <$> toks) in
  (∀ p0,
     PortfolioAccounts.byId (accounts (forEach_account toCAIP19 p0 (k, a))) !! k
       = Some (ethCAIP19 :: (tokenId <$> toks))
     ∧ PortfolioBalances.ids (balances (forEach_account toCAIP19 p0 (k, a)))
       = PortfolioBalances.ids (balances p0) ++ ethCAIP19 :: (tokenId <$> toks)
     ∧ PortfolioBalances.byId (balances (forEach_account toCAIP19 p0 (k, a)))
       = insert_all writes (PortfolioBalances.byId (balances p0)))
  ∧ Forall (λ id, toLowerCase id = id) (tokenId <$> toks)
  ∧ PortfolioAccounts.byId (accounts p) !! k = Some (ethCAIP19 :: (tokenId <$> toks))
  ∧ (∀ i id b,
       writes !! i = Some (id, b) →
       id ∉ (drop (S i) writes).*1 →
       id ∉ (recordings toCAIP19 args2).*1 →
       PortfolioBalances.byId (balances p) !! id = Some b)
  ∧ (∀ t1 t2,
       tokens (chainSpecific a) = Some [t1; t2] →
       length (PortfolioBalances.ids (balances (accountsToPortfolio toCAIP19 [(k, a)]))) = 3
       ∧ (length <$> PortfolioAccounts.byId (accounts (accountsToPortfolio toCAIP19 [(k, a)])) !! k)
         = Some 3
       ∧ dom (PortfolioBalances.byId (balances (accountsToPortfolio toCAIP19 [(k, a)])))
         = ({[ethCAIP19; tokenId t1; tokenId t2]} : gset string)
       ∧ (NoDup [ethCAIP19; tokenId t1; tokenId t2] →
          size (PortfolioBalances.byId (balances (accountsToPortfolio toCAIP19 [(k, a)]))) = 3))
  ∧ (tokens (chainSpecific a) = None →
       PortfolioBalances.ids (balances (accountsToPortfolio toCAIP19 [(k, a)])) = [ethCAIP19]
       ∧ PortfolioBalances.byId (balances (accountsToPortfolio toCAIP19 [(k, a)]))
         = {[ethCAIP19 := balance a]}
       ∧ PortfolioAccounts.byId (accounts (accountsToPortfolio toCAIP19 [(k, a)])) !! k
         = Some [ethCAIP19]).
Proof.
  intros Hc Hwf p ethCAIP19 toks tokenId writes.
  assert (Hrec : recorded toCAIP19 a = writes).
  { unfold recorded. by rewrite Hc. }
  assert (Hids : writes.*1 = ethCAIP19 :: (tokenId <$> toks)).
  { subst writes. rewrite fmap_cons. cbn [fst]. f_equal.
    rewrite <- list_fmap_compose. reflexivity. }
  split; [|split; [|split; [|split; [|split]]]].
  - intros p0.
    rewrite forEach_account_accounts_byId, forEach_account_balances_ids,
      forEach_account_balances_byId, Hrec, Hids.
    split; [apply lookup_insert_eq|done].
  - apply Forall_fmap, Forall_forall. intros t _. cbn. apply toLowerCase_idemp.
  - subst p. unfold accountsToPortfolio.
    rewrite fold_accounts_byId, fold_accounts_byId_last by eauto using wf_args_later.
    by rewrite Hrec, Hids.
  - intros i id b Hi Hlater Hargs2. subst p. unfold accountsToPortfolio.
    rewrite fold_balances_byId, recordings_app, recordings_cons, Hrec.
    rewrite <- (take_drop_middle writes i (id, b) Hi), <- !app_assoc, app_assoc.
    cbn [app]. apply lookup_insert_all_last. rewrite fmap_app. set_solver.
  - intros t1 t2 Htoks. unfold accountsToPortfolio. cbn [foldl].
    rewrite forEach_account_accounts_byId, forEach_account_balances_ids,
      forEach_account_balances_byId, Hrec, Hids.
    subst writes toks. rewrite Htoks. cbn [default fmap list_fmap].
    rewrite lookup_insert_eq. repeat split.
    + rewrite dom_insert_all. cbn. rewrite dom_empty_L. set_solver.
    + intros Hnd. apply NoDup_cons in Hnd as [H1 Hnd]. apply NoDup_cons in Hnd as [H2 _].
      cbn. rewrite !map_size_insert_None, map_size_empty; [done|..].
      * apply lookup_empty.
      * rewrite lookup_insert_ne; [apply lookup_empty|set_solver].
      * rewrite !lookup_insert_ne; [apply lookup_empty|set_solver..].
  - intros Htoks. unfold accountsToPortfolio. cbn [foldl].
    rewrite forEach_account_accounts_byId, forEach_account_balances_ids,
      forEach_account_balances_byId, Hrec, Hids.
    subst writes toks. rewrite Htoks. cbn [default fmap list_fmap].
    rewrite lookup_insert_eq. repeat split.
Qed.

End normalizer_facts.

(** ** The normalizer on the heap *)

Lemma run_bind_Normal {A B} (m : Run A) (f : A → Run B) h a h' :
  m h = Normal (a, h') → run_bind m f h = f a h'.
Proof. unfold run_bind. by intros ->. Qed.

Lemma lookup_region (h0 L : Heap) i : (h0 ++ L) !! (length h0 + i) = L !! i.
Proof. rewrite lookup_app_r by lia. f_equal. lia. Qed.

Lemma load_region h0 L i o :
  L !! i = Some o → load (length h0 + i) (h0 ++ L) = Normal (o, h0 ++ L).
Proof. intros E. unfold load. by rewrite lookup_region, E. Qed.

Lemma load_prefix h0 L r o :
  h0 !! r = Some o → load r (h0 ++ L) = Normal (o, h0 ++ L).
Proof. intros E. unfold load. by rewrite (lookup_app_l_Some _ _ _ _ E). Qed.

Lemma store_region h0 L i o :
  i < length L → store (length h0 + i) o (h0 ++ L) = Normal (tt, h0 ++ <[i := o]> L).
Proof.
  intros Hi. unfold store. rewrite decide_True by (rewrite length_app; lia).
  by rewrite insert_app_r.
Qed.

Lemma array_push_region h0 L i items x :
  L !! i = Some (O_strings items) →
  array_push (length h0 + i) x (h0 ++ L)
  = Normal (tt, h0 ++ <[i := O_strings (items ++ [x])]> L).
Proof.
  intros E. unfold array_push. rewrite (run_bind_Normal _ _ _ _ _ (load_region _ _ _ _ E)).
  apply store_region. by apply lookup_lt_Some in E.
Qed.

Lemma region_length base p m arrays : length (region base p m arrays) = 7 + length arrays.
Proof. unfold region. rewrite length_app, length_fmap. reflexivity. Qed.

Lemma region_accounts h0 p m arrays :
  portfolio_accounts (length h0 + 6) (h0 ++ region (length h0) p m arrays)
  = Normal (length h0 + 2, h0 ++ region (length h0) p m arrays).
Proof.
  unfold portfolio_accounts.
  by rewrite (run_bind_Normal _ _ _ _ _ (load_region _ (region _ _ _ _) 6 _ eq_refl)).
Qed.

Lemma region_balances h0 p m arrays :
  portfolio_balances (length h0 + 6) (h0 ++ region (length h0) p m arrays)
  = Normal (length h0 + 5, h0 ++ region (length h0) p m arrays).
Proof.
  unfold portfolio_balances.
  by rewrite (run_bind_Normal _ _ _ _ _ (load_region _ (region _ _ _ _) 6 _ eq_refl)).
Qed.

Lemma region_accounts_byId h0 p m arrays :
  index_byId (length h0 + 2) (h0 ++ region (length h0) p m arrays)
  = Normal (length h0 + 0, h0 ++ region (length h0) p m arrays).
Proof.
  unfold index_byId.
  by rewrite (run_bind_Normal _ _ _ _ _ (load_region _ (region _ _ _ _) 2 _ eq_refl)).
Qed.

Lemma region_accounts_ids h0 p m arrays :
  index_ids (length h0 + 2) (h0 ++ region (length h0) p m arrays)
  = Normal (length h0 + 1, h0 ++ region (length h0) p m arrays).
Proof.
  unfold index_ids.
  by rewrite (run_bind_Normal _ _ _ _ _ (load_region _ (region _ _ _ _) 2 _ eq_refl)).
Qed.

Lemma region_balances_byId h0 p m arrays :
  index_byId (length h0 + 5) (h0 ++ region (length h0) p m arrays)
  = Normal (length h0 + 3, h0 ++ region (length h0) p m arrays).
Proof.
  unfold index_byId.
  by rewrite (run_bind_Normal _ _ _ _ _ (load_region _ (region _ _ _ _) 5 _ eq_refl)).
Qed.

Lemma region_balances_ids h0 p m arrays :
  index_ids (length h0 + 5) (h0 ++ region (length h0) p m arrays)
  = Normal (length h0 + 4, h0 ++ region (length h0) p m arrays).
Proof.
  unfold index_ids.
  by rewrite (run_bind_Normal _ _ _ _ _ (load_region _ (region _ _ _ _) 5 _ eq_refl)).
Qed.

(** Line 94. *)
Lemma heap_accounts_byId_set_rep h0 p h k :
  rep h0 p h →
  ∃ h', heap_accounts_byId_set (length h0 + 6) k h = Normal (tt, h')
        ∧ rep h0 (accounts_byId_set k [] p) h'.
Proof.
  intros (m & arrays & -> & Hl & Hr & Hi).
  exists (h0 ++ region (length h0) (accounts_byId_set k [] p)
                       (<[k := length arrays]> m) (arrays ++ [[]])).
  split.
  - unfold heap_accounts_byId_set.
    rewrite (run_bind_Normal _ _ _ _ _ (region_accounts _ _ _ _)).
    rewrite (run_bind_Normal _ _ _ _ _ (region_accounts_byId _ _ _ _)).
    unfold run_bind at 1, alloc. rewrite <- app_assoc.
    rewrite (run_bind_Normal _ _ _ _ _ (load_region _ (region _ _ _ _ ++ _) 0 _ eq_refl)).
    rewrite store_region by (rewrite length_app, region_length; lia).
    rewrite length_app, region_length.
    do 2 f_equal. unfold region. rewrite fmap_app, fmap_insert. cbn.
    reflexivity.
  - exists (<[k := length arrays]> m), (arrays ++ [[]]). split; [done|].
    cbn [accounts_byId_set accounts PortfolioAccounts.byId]. repeat split.
    + intros k'. destruct (decide (k' = k)) as [->|Hne].
      * rewrite !lookup_insert_eq. cbn.
        rewrite lookup_app_r by lia. by rewrite Nat.sub_diag.
      * rewrite !lookup_insert_ne by done. rewrite Hl.
        destruct (m !! k') as [i|] eqn:E; [|done]. cbn.
        by rewrite lookup_app_l by eauto.
    + intros k' i. rewrite length_app. cbn. destruct (decide (k' = k)) as [->|Hne].
      * rewrite lookup_insert_eq. intros [= <-]. lia.
      * rewrite lookup_insert_ne by done. intros E. apply Hr in E. lia.
    + intros k1 k2 i.
      destruct (decide (k1 = k)) as [->|H1], (decide (k2 = k)) as [->|H2]; [done|..].
      * rewrite lookup_insert_eq, lookup_insert_ne by done.
        intros [= <-] E. apply Hr in E. lia.
      * rewrite lookup_insert_eq, lookup_insert_ne by done.
        intros E [= <-]. apply Hr in E. lia.
      * rewrite !lookup_insert_ne by done. apply Hi.
Qed.

(** Line 95. *)
Lemma heap_accounts_ids_push_rep h0 p h k :
  rep h0 p h →
  ∃ h', heap_accounts_ids_push (length h0 + 6) k h = Normal (tt, h')
        ∧ rep h0 (accounts_ids_push k p) h'.
Proof.
  intros (m & arrays & -> & Hf).
  exists (h0 ++ region (length h0) (accounts_ids_push k p) m arrays). split.
  - unfold heap_accounts_ids_push.
    rewrite (run_bind_Normal _ _ _ _ _ (region_accounts _ _ _ _)).
    rewrite (run_bind_Normal _ _ _ _ _ (region_accounts_ids _ _ _ _)).
    by rewrite (array_push_region _ (region _ _ _ _) 1 _ _ eq_refl).
  - by exists m, arrays.
Qed.

(** Lines 101, 111 and 128. *)
Lemma heap_balances_ids_push_rep h0 p h id :
  rep h0 p h →
  ∃ h', heap_balances_ids_push (length h0 + 6) id h = Normal (tt, h')
        ∧ rep h0 (balances_ids_push id p) h'.
Proof.
  intros (m & arrays & -> & Hf).
  exists (h0 ++ region (length h0) (balances_ids_push id p) m arrays). split.
  - unfold heap_balances_ids_push.
    rewrite (run_bind_Normal _ _ _ _ _ (region_balances _ _ _ _)).
    rewrite (run_bind_Normal _ _ _ _ _ (region_balances_ids _ _ _ _)).
    by rewrite (array_push_region _ (region _ _ _ _) 4 _ _ eq_refl).
  - by exists m, arrays.
Qed.

(** Lines 102, 112 and 127. *)
Lemma heap_balances_byId_set_rep h0 p h id b :
  rep h0 p h →
  ∃ h', heap_balances_byId_set (length h0 + 6) id b h = Normal (tt, h')
        ∧ rep h0 (balances_byId_set id b p) h'.
Proof.
  intros (m & arrays & -> & Hf).
  exists (h0 ++ region (length h0) (balances_byId_set id b p) m arrays). split.
  - unfold heap_balances_byId_set.
    rewrite (run_bind_Normal _ _ _ _ _ (region_balances _ _ _ _)).
    rewrite (run_bind_Normal _ _ _ _ _ (region_balances_byId _ _ _ _)).
    rewrite (run_bind_Normal _ _ _ _ _ (load_region _ (region _ _ _ _) 3 _ eq_refl)).
    by rewrite store_region by (rewrite region_length; lia).
  - by exists m, arrays.
Qed.

(** Lines 100, 110 and 126: the account's list is there. *)
Lemma heap_accounts_byId_push_rep h0 p h k id :
  rep h0 p h → is_Some (PortfolioAccounts.byId (accounts p) !! k) →
  ∃ h', heap_accounts_byId_push (length h0 + 6) k id h = Normal (tt, h')
        ∧ rep h0 (accounts_byId_push k id p) h'.
Proof.
  intros (m & arrays & -> & Hl & Hr & Hi) [l Hk].
  pose proof (Hl k) as Hlk. rewrite Hk in Hlk.
  destruct (m !! k) as [i|] eqn:Hm; [|done]. cbn in Hlk. symmetry in Hlk.
  exists (h0 ++ region (length h0) (accounts_byId_push k id p) m (<[i := l ++ [id]]> arrays)).
  split.
  - unfold heap_accounts_byId_push.
    rewrite (run_bind_Normal _ _ _ _ _ (region_accounts _ _ _ _)).
    rewrite (run_bind_Normal _ _ _ _ _ (region_accounts_byId _ _ _ _)).
    rewrite (run_bind_Normal _ _ _ _ _ (load_region _ (region _ _ _ _) 0 _ eq_refl)).
    rewrite lookup_fmap, Hm. cbn [fmap option_fmap option_map].
    rewrite (array_push_region _ _ (7 + i) l).
    + do 2 f_equal. unfold region. cbn. by rewrite list_fmap_insert.
    + unfold region. rewrite lookup_app_r by (cbn; lia).
      cbn [length]. replace (7 + i - 7) with i by lia.
      by rewrite list_lookup_fmap, Hlk.
  - exists m, (<[i := l ++ [id]]> arrays). split; [done|].
    cbn [accounts_byId_push accounts PortfolioAccounts.byId]. repeat split.
    + intros k'. destruct (decide (k' = k)) as [->|Hne].
      * rewrite lookup_alter_eq, Hk, Hm. cbn.
        rewrite list_lookup_insert_eq; [done|]. by apply lookup_lt_Some in Hlk.
      * rewrite lookup_alter_ne by done. rewrite Hl.
        destruct (m !! k') as [j|] eqn:E; [|done]. cbn.
        rewrite list_lookup_insert_ne; [done|]. intros <-. apply Hne. by eapply Hi.
    + intros k' j E. rewrite length_insert. by eapply Hr.
    + apply Hi.
Qed.

(** Reads of the caller's objects during a call. *)
Lemma load_rep h0 p h r o :
  rep h0 p h → h0 !! r = Some o → load r h = Normal (o, h).
Proof. intros (m & arrays & -> & _). apply load_prefix. Qed.

Lemma load_account_rep h0 p h r cell :
  rep h0 p h → h0 !! r = Some (O_account cell) → load_account r h = Normal (cell, h).
Proof.
  intros R E. unfold load_account. by rewrite (run_bind_Normal _ _ _ _ _ (load_rep _ _ _ _ _ R E)).
Qed.

Lemma load_chainSpecific_rep h0 p h r t a :
  rep h0 p h → h0 !! r = Some (O_chainSpecific t a) →
  load_chainSpecific r h = Normal ((t, a), h).
Proof.
  intros R E. unfold load_chainSpecific.
  by rewrite (run_bind_Normal _ _ _ _ _ (load_rep _ _ _ _ _ R E)).
Qed.

Lemma load_objects_rep h0 p h r rs :
  rep h0 p h → h0 !! r = Some (O_objects rs) → load_objects r h = Normal (rs, h).
Proof.
  intros R E. unfold load_objects. by rewrite (run_bind_Normal _ _ _ _ _ (load_rep _ _ _ _ _ R E)).
Qed.

Lemma load_token_rep h0 p h r token :
  rep h0 p h → h0 !! r = Some (O_token token) → load_token r h = Normal (token, h).
Proof.
  intros R E. unfold load_token. by rewrite (run_bind_Normal _ _ _ _ _ (load_rep _ _ _ _ _ R E)).
Qed.

Lemma load_address_rep h0 p h r address :
  rep h0 p h → h0 !! r = Some (O_address address) → load_address r h = Normal (address, h).
Proof.
  intros R E. unfold load_address. by rewrite (run_bind_Normal _ _ _ _ _ (load_rep _ _ _ _ _ R E)).
Qed.

Section heap_facts.

Variable toCAIP19 : ToCAIP19Args → CAIP19.

Lemma forEach_token_keeps_list chain network k p token :
  is_Some (PortfolioAccounts.byId (accounts p) !! k) →
  is_Some (PortfolioAccounts.byId
             (accounts (forEach_token toCAIP19 chain network k p token)) !! k).
Proof.
  intros [l E]. unfold forEach_token. cbn. rewrite lookup_alter_eq, E. by eexists.
Qed.

(** Lines 105-113. *)
Lemma heap_forEach_token_rep h0 p h chain network k r token :
  rep h0 p h → is_Some (PortfolioAccounts.byId (accounts p) !! k) →
  h0 !! r = Some (O_token token) →
  ∃ h', heap_forEach_token toCAIP19 chain network k (length h0 + 6) r h = Normal (tt, h')
        ∧ rep h0 (forEach_token toCAIP19 chain network k p token) h'.
Proof.
  intros R Hk E. unfold heap_forEach_token, forEach_token.
  rewrite (run_bind_Normal _ _ _ _ _ (load_token_rep _ _ _ _ _ R E)).
  destruct (heap_accounts_byId_push_rep h0 p h k (tokenCAIP19 toCAIP19 chain network token) R Hk)
    as (h1 & E1 & R1).
  rewrite (run_bind_Normal _ _ _ _ _ E1).
  destruct (heap_balances_ids_push_rep h0 _ h1 (tokenCAIP19 toCAIP19 chain network token) R1)
    as (h2 & E2 & R2).
  rewrite (run_bind_Normal _ _ _ _ _ E2).
  apply heap_balances_byId_set_rep, R2.
Qed.

Lemma run_forEach_tokens_rep h0 chain network k rs toks :
  Forall2 (λ r x, h0 !! r = Some (O_token x)) rs toks →
  ∀ p h, rep h0 p h → is_Some (PortfolioAccounts.byId (accounts p) !! k) →
  ∃ h', run_forEach rs (heap_forEach_token toCAIP19 chain network k (length h0 + 6)) h
        = Normal (tt, h')
        ∧ rep h0 (foldl (forEach_token toCAIP19 chain network k) p toks) h'.
Proof.
  induction 1 as [|r token rs toks E _ IH]; intros p h R Hk; cbn [run_forEach foldl].
  - by exists h.
  - destruct (heap_forEach_token_rep h0 p h chain network k r token R Hk E) as (h1 & E1 & R1).
    rewrite (run_bind_Normal _ _ _ _ _ E1).
    apply IH; [done|]. by apply forEach_token_keeps_list.
Qed.

(** Line 121. *)
Lemma heap_totalSats_rep h0 p h rs addrs :
  Forall2 (λ r x, h0 !! r = Some (O_address x)) rs addrs → rep h0 p h →
  heap_totalSats rs h = Normal (totalSats addrs, h).
Proof.
  intros HF R. unfold heap_totalSats, totalSats. generalize (bn (V_number 0)).
  induction HF as [|r address rs addrs E _ IH]; intros acc; cbn [run_reduce foldl]; [done|].
  rewrite (run_bind_Normal _ _ _ (plus acc (bnOrZero (V_optional (address_balance address)))) h).
  - apply IH.
  - by rewrite (run_bind_Normal _ _ _ _ _ (load_address_rep _ _ _ _ _ R E)).
Qed.

(** Lines 92-135. *)
Lemma heap_forEach_account_rep h0 p h k r a :
  rep h0 p h → holds_account h0 r a →
  ∃ h', heap_forEach_account toCAIP19 (length h0 + 6) (k, r) h = Normal (tt, h')
        ∧ rep h0 (forEach_account toCAIP19 p (k, a)) h'.
Proof.
  intros R (cs & t & ad & Ea & Ecs & Ht & Had).
  unfold heap_forEach_account, forEach_account.
  rewrite (run_bind_Normal _ _ _ _ _ (load_account_rep _ _ _ _ _ R Ea)).
  destruct (heap_accounts_byId_set_rep h0 p h k R) as (h1 & E1 & R1).
  rewrite (run_bind_Normal _ _ _ _ _ E1).
  destruct (heap_accounts_ids_push_rep h0 _ h1 k R1) as (h2 & E2 & R2).
  rewrite (run_bind_Normal _ _ _ _ _ E2).
  assert (is_Some (PortfolioAccounts.byId
            (accounts (accounts_ids_push k (accounts_byId_set k [] p))) !! k)) as Hk.
  { cbn. rewrite lookup_insert_eq. by eexists. }
  cbn [cell_chain cell_network cell_balance cell_chainSpecific].
  destruct (chain a) eqn:Hc.
  - (* Ethereum *)
    destruct (heap_accounts_byId_push_rep h0 _ h2 k (nativeCAIP19 toCAIP19 Ethereum (network a))
                R2 Hk) as (h3 & E3 & R3).
    rewrite (run_bind_Normal _ _ _ _ _ E3).
    destruct (heap_balances_ids_push_rep h0 _ h3 (nativeCAIP19 toCAIP19 Ethereum (network a)) R3)
      as (h4 & E4 & R4).
    rewrite (run_bind_Normal _ _ _ _ _ E4).
    rewrite (run_bind_Normal _ _ _ _ _ (load_account_rep _ _ _ _ _ R4 Ea)).
    cbn [cell_chain cell_network cell_balance cell_chainSpecific].
    destruct (heap_balances_byId_set_rep h0 _ h4 (nativeCAIP19 toCAIP19 Ethereum (network a))
                (balance a) R4) as (h5 & E5 & R5).
    rewrite (run_bind_Normal _ _ _ _ _ E5).
    rewrite (run_bind_Normal _ _ _ _ _ (load_chainSpecific_rep _ _ _ _ _ _ R5 Ecs)).
    cbn [fst]. unfold holds_array in Ht.
    destruct t as [rt|], (tokens (chainSpecific a)) as [toks|]; try done.
    + destruct Ht as (rs & Ers & HF).
      rewrite (run_bind_Normal _ _ _ _ _ (load_objects_rep _ _ _ _ _ R5 Ers)).
      apply run_forEach_tokens_rep; [done..|].
      cbn. rewrite lookup_alter_eq, lookup_insert_eq. by eexists.
    + by exists h5.
  - (* Bitcoin *)
    rewrite (run_bind_Normal _ _ _ _ _ (load_account_rep _ _ _ _ _ R2 Ea)).
    cbn [cell_chain cell_network cell_balance cell_chainSpecific].
    rewrite (run_bind_Normal _ _ _ _ _ (load_chainSpecific_rep _ _ _ _ _ _ R2 Ecs)).
    cbn [snd]. unfold holds_array in Had.
    assert (∃ rs, match ad with
                  | Some addresses => load_objects addresses
                  | None => run_ret []
                  end h2 = Normal (rs, h2)
                  ∧ Forall2 (λ r x, h0 !! r = Some (O_address x)) rs
                      (default [] (addresses (chainSpecific a)))) as (rs & Ers & HF).
    { destruct ad as [rad|], (addresses (chainSpecific a)) as [addrs|]; try done.
      - destruct Had as (rs & Ers & HF). exists rs.
        by rewrite (load_objects_rep _ _ _ _ _ R2 Ers).
      - exists []. split; [done|]. constructor. }
    rewrite (run_bind_Normal _ _ _ _ _ Ers).
    rewrite (run_bind_Normal _ _ _ _ _ (heap_totalSats_rep _ _ _ _ _ HF R2)).
    set (bal := toString (decimalPlaces 0 (totalSats (default [] (addresses (chainSpecific a)))))).
    destruct (heap_accounts_byId_push_rep h0 _ h2 k (nativeCAIP19 toCAIP19 Bitcoin (network a))
                R2 Hk) as (h3 & E3 & R3).
    rewrite (run_bind_Normal _ _ _ _ _ E3).
    destruct (heap_balances_byId_set_rep h0 _ h3 (nativeCAIP19 toCAIP19 Bitcoin (network a))
                bal R3) as (h4 & E4 & R4).
    rewrite (run_bind_Normal _ _ _ _ _ E4).
    apply heap_balances_ids_push_rep, R4.
  - (* any other chain *)
    by exists h2.
Qed.

Lemma run_forEach_accounts_rep h0 entries args :
  Forall2 (λ e ea, e.1 = ea.1 ∧ holds_account h0 e.2 ea.2) entries args →
  ∀ p h, rep h0 p h →
  ∃ h', run_forEach entries (heap_forEach_account toCAIP19 (length h0 + 6)) h = Normal (tt, h')
        ∧ rep h0 (foldl (forEach_account toCAIP19) p args) h'.
Proof.
  induction 1 as [|[k r] [k' a] entries args [Hk Ha] _ IH]; intros p h R; cbn [run_forEach foldl].
  - by exists h.
  - cbn in Hk, Ha. subst k'.
    destruct (heap_forEach_account_rep h0 p h k r a R Ha) as (h1 & E1 & R1).
    rewrite (run_bind_Normal _ _ _ _ _ E1). by apply IH.
Qed.

End heap_facts.

(** *** [cloneDeep(initialState)] *)

Lemma alloc_app h0 L o :
  alloc o (h0 ++ L) = Normal (length h0 + length L, h0 ++ (L ++ [o])).
Proof. unfold alloc. by rewrite length_app, app_assoc. Qed.

Lemma clone_strings_app h0 L r items :
  h0 !! r = Some (O_strings items) →
  clone_strings r (h0 ++ L) = Normal (length h0 + length L, h0 ++ (L ++ [O_strings items])).
Proof.
  intros E. unfold clone_strings. rewrite (run_bind_Normal _ _ _ _ _ (load_prefix _ _ _ _ E)).
  apply alloc_app.
Qed.

Lemma clone_byId_balances h0 L r props :
  h0 !! r = Some (O_balances_byId props) →
  clone_byId r (h0 ++ L) = Normal (length h0 + length L, h0 ++ (L ++ [O_balances_byId props])).
Proof.
  intros E. unfold clone_byId. rewrite (run_bind_Normal _ _ _ _ _ (load_prefix _ _ _ _ E)).
  apply alloc_app.
Qed.

Lemma clone_byId_accounts_empty h0 L r :
  h0 !! r = Some (O_accounts_byId ∅) →
  clone_byId r (h0 ++ L) = Normal (length h0 + length L, h0 ++ (L ++ [O_accounts_byId ∅])).
Proof.
  intros E. unfold clone_byId. rewrite (run_bind_Normal _ _ _ _ _ (load_prefix _ _ _ _ E)).
  cbv beta iota. rewrite map_to_list_empty. cbn [run_map].
  unfold run_bind, run_ret. apply alloc_app.
Qed.

Lemma clone_index_app h0 L r rb ri o items :
  h0 !! r = Some (O_index rb ri) →
  clone_byId rb (h0 ++ L) = Normal (length h0 + length L, h0 ++ (L ++ [o])) →
  h0 !! ri = Some (O_strings items) →
  clone_index r (h0 ++ L)
  = Normal (length h0 + (length L + 2),
            h0 ++ (L ++ [o; O_strings items;
                         O_index (length h0 + length L) (length h0 + (length L + 1))])).
Proof.
  intros E Eb Ei. unfold clone_index.
  rewrite (run_bind_Normal _ _ _ _ _ (load_prefix _ _ _ _ E)). cbv beta iota.
  rewrite (run_bind_Normal _ _ _ _ _ Eb).
  rewrite (run_bind_Normal _ _ _ _ _ (clone_strings_app _ _ _ _ Ei)).
  rewrite alloc_app, !length_app, <- !app_assoc. cbn [length app].
  by rewrite <- Nat.add_assoc.
Qed.

(** Line 90: the clone of [initialState] is seven new objects. *)
Lemma cloneDeep_initialState h0 r0 :
  holds_initialState h0 r0 →
  cloneDeep r0 h0 = Normal (length h0 + 6, h0 ++ region (length h0) initialState ∅ []).
Proof.
  intros (ra & rb & rab & rai & rbb & rbi & Hr & Hra & Hrb & Hrab & Hrai & Hrbb & Hrbi).
  assert (∀ h, h = h0 ++ [] →
            cloneDeep r0 h = Normal (length h0 + 6, h0 ++ region (length h0) initialState ∅ []))
    as Hgen; [|apply Hgen; by rewrite app_nil_r].
  intros h ->. unfold cloneDeep.
  rewrite (run_bind_Normal _ _ _ _ _ (load_prefix _ _ _ _ Hr)). cbv beta iota.
  rewrite (run_bind_Normal _ _ _ _ _
             (clone_index_app _ _ _ _ _ _ _ Hra (clone_byId_accounts_empty _ _ _ Hrab) Hrai)).
  rewrite (run_bind_Normal _ _ _ _ _
             (clone_index_app _ _ _ _ _ _ _ Hrb (clone_byId_balances _ _ _ _ Hrbb) Hrbi)).
  rewrite alloc_app. unfold region. rewrite fmap_empty. reflexivity.
Qed.

(** *** Reading a result back *)

Lemma region_cells h0 p m arrays rest :
  let h := h0 ++ region (length h0) p m arrays ++ rest in
  h !! (length h0 + 6) = Some (O_portfolio (length h0 + 2) (length h0 + 5))
  ∧ h !! (length h0 + 2) = Some (O_index (length h0 + 0) (length h0 + 1))
  ∧ h !! (length h0 + 5) = Some (O_index (length h0 + 3) (length h0 + 4))
  ∧ h !! (length h0 + 0) = Some (O_accounts_byId ((λ i, length h0 + (7 + i)) <$> m))
  ∧ h !! (length h0 + 1) = Some (O_strings (PortfolioAccounts.ids (accounts p)))
  ∧ h !! (length h0 + 3) = Some (O_balances_byId (PortfolioBalances.byId (balances p)))
  ∧ h !! (length h0 + 4) = Some (O_strings (PortfolioBalances.ids (balances p)))
  ∧ ∀ i, i < length arrays → h !! (length h0 + (7 + i)) = O_strings <$> arrays !! i.
Proof.
  intros h. subst h. repeat split; try (by rewrite lookup_region).
  intros i Hi. rewrite lookup_region. unfold region.
  rewrite <- app_assoc. rewrite lookup_app_r by (cbn; lia). cbn [length].
  replace (7 + i - 7) with i by lia.
  rewrite lookup_app_l by (rewrite length_fmap; lia). by rewrite list_lookup_fmap.
Qed.

Lemma read_portfolio_region h0 p m arrays rest :
  fits (PortfolioAccounts.byId (accounts p)) m arrays →
  read_portfolio (h0 ++ region (length h0) p m arrays ++ rest) (length h0 + 6) = Some p.
Proof.
  intros (Hl & Hr & _).
  destruct (region_cells h0 p m arrays rest) as (E6 & E2 & E5 & E0 & E1 & E3 & E4 & Harr).
  unfold read_portfolio. rewrite E6, E2, E5, E0, E1, E3, E4.
  rewrite decide_True.
  - replace (omap _ _) with (PortfolioAccounts.byId (accounts p)).
    { by destruct p as [[ab ai] [bb bi]]. }
    apply map_eq. intros k. rewrite lookup_omap, lookup_fmap, Hl.
    destruct (m !! k) as [i|] eqn:E; [|done].
    cbn [fmap option_fmap option_map mbind option_bind].
    rewrite Harr by eauto. by destruct (arrays !! i).
  - intros k r. rewrite lookup_fmap. destruct (m !! k) as [i|] eqn:E; [|done].
    cbn [fmap option_fmap option_map]. intros E'.
    assert (r = length h0 + (7 + i)) as -> by congruence. rewrite Harr by eauto.
    destruct (lookup_lt_is_Some_2 arrays i) as [l ->]; [eauto|]. by eexists.
Qed.

(** Every object of a result is one the call allocated. *)
Lemma portfolio_refs_region h0 p m arrays :
  Forall (λ r, length h0 ≤ r)
         (portfolio_refs (h0 ++ region (length h0) p m arrays) (length h0 + 6)).
Proof.
  destruct (region_cells h0 p m arrays []) as (E6 & E2 & E5 & E0 & _).
  rewrite app_nil_r in E6, E2, E5, E0.
  unfold portfolio_refs. rewrite E6, E2, E5, E0.
  apply Forall_app. split.
  - repeat (constructor; [lia|]). constructor.
  - apply Forall_forall. intros r Hr.
    apply list_elem_of_fmap in Hr as ([k r'] & -> & Hr).
    apply elem_of_map_to_list in Hr. rewrite lookup_fmap in Hr.
    destruct (m !! k) as [i|]; [|done].
    cbn [fmap option_fmap option_map] in Hr.
    assert (r' = length h0 + (7 + i)) as -> by congruence. cbn. lia.
Qed.

(** *** What a call leaves alone *)

Lemma holds_initialState_app h L r :
  holds_initialState h r → holds_initialState (h ++ L) r.
Proof.
  intros (ra & rb & rab & rai & rbb & rbi & H1 & H2 & H3 & H4 & H5 & H6 & H7).
  exists ra, rb, rab, rai, rbb, rbi.
  repeat split; by apply lookup_app_l_Some.
Qed.

Lemma holds_array_app {A} (cell : A → Object) h L o l :
  holds_array cell h o l → holds_array cell (h ++ L) o l.
Proof.
  destruct o as [r|], l as [xs|]; cbn; try done.
  intros (rs & E & HF). exists rs. split; [by apply lookup_app_l_Some|].
  eapply Forall2_impl; [exact HF|]. intros r' x. apply lookup_app_l_Some.
Qed.

Lemma holds_account_app h L r a :
  holds_account h r a → holds_account (h ++ L) r a.
Proof.
  intros (cs & t & ad & Ea & Ecs & Ht & Had). exists cs, t, ad.
  repeat split; [by apply lookup_app_l_Some..| |]; by apply holds_array_app.
Qed.

Lemma holds_args_app h L r args :
  holds_args h r args → holds_args (h ++ L) r args.
Proof.
  intros (entries & E & HF). exists entries. split; [by apply lookup_app_l_Some|].
  eapply Forall2_impl; [exact HF|]. intros e ea [? ?]. split; [done|].
  by apply holds_account_app.
Qed.

(** A write to an object that is there is seen: the heap before the write
    is no prefix of the heap after it. *)
Lemma store_seen h r o o' :
  h !! r = Some o → o ≠ o' →
  ∃ h', store r o' h = Normal (tt, h') ∧ ¬ h `prefix_of` h'.
Proof.
  intros E Hne. exists (<[r := o']> h). unfold store.
  rewrite decide_True by (by eapply lookup_lt_Some). split; [done|].
  intros Hp. apply Hne.
  pose proof (prefix_lookup_Some _ _ _ _ E Hp) as E'.
  rewrite list_lookup_insert_eq in E' by (by eapply lookup_lt_Some). congruence.
Qed.

(** On [sample_heap], a write to the argument object: the heap no longer
    holds the argument. *)
Lemma store_args_seen :
  ∃ h', store 20 (O_args []) sample_heap = Normal (tt, h')
        ∧ ¬ holds_args h' 20 sample_args
        ∧ ¬ sample_heap `prefix_of` h'.
Proof.
  eexists. split; [reflexivity|]. split.
  - intros (entries & E & HF). cbn in E. injection E as <-. inversion HF.
  - intros Hp.
    pose proof (prefix_lookup_Some sample_heap _ 20 _ eq_refl Hp) as E.
    cbn in E. discriminate E.
Qed.

Section heap_run.

Variable toCAIP19 : ToCAIP19Args → CAIP19.

(** A call on a heap that holds [initialState] and the argument: the
    result is the last of the seven objects of the clone, and the heap
    after the call is the heap before it and then the objects of the
    result. *)
Lemma accountsToPortfolio_heap_run h r0 ra args :
  holds_initialState h r0 → holds_args h ra args →
  ∃ m arrays,
    accountsToPortfolio_heap toCAIP19 r0 ra h
    = Normal (length h + 6, h ++ region (length h) (accountsToPortfolio toCAIP19 args) m arrays)
    ∧ fits (PortfolioAccounts.byId (accounts (accountsToPortfolio toCAIP19 args))) m arrays.
Proof.
  intros Hinit (entries & Eargs & HF). unfold accountsToPortfolio_heap.
  rewrite (run_bind_Normal _ _ _ _ _ (cloneDeep_initialState _ _ Hinit)).
  unfold Object_entries.
  rewrite (run_bind_Normal _ _ _ _ _
             (run_bind_Normal _ _ _ _ _ (load_prefix _ _ _ _ Eargs))).
  assert (rep h initialState (h ++ region (length h) initialState ∅ [])) as R.
  { exists ∅, []. split; [done|]. repeat split; intros *; by rewrite ?lookup_empty. }
  destruct (run_forEach_accounts_rep toCAIP19 h entries args HF _ _ R)
    as (h' & E & m & arrays & -> & Hfits).
  rewrite (run_bind_Normal _ _ _ _ _ E). by exists m, arrays.
Qed.

End heap_run.

Section heap_purity.

Variable toCAIP19 : ToCAIP19Args → CAIP19.

(** C10.  [accountsToPortfolio] on a heap that holds the module's
    [initialState] and the caller's argument, every object of either
    behind a reference the function could write through.  A call returns;
    the heap after it is the heap before it followed by new objects, so no
    object that was there, the argument and [initialState] among them, has
    been written; every object of the result is new; and the result reads
    as the portfolio of the entries.  A second call on the same argument
    returns another object that reads as an equal portfolio, and leaves
    the first result as it was. *)
Theorem accountsToPortfolio_pure (h : Heap) (initialState_ref args_ref : nat)
    (args : list (string * Account)) :
  holds_initialState h initialState_ref →
  holds_args h args_ref args →
  ∃ r1 h1 r2 h2,
    accountsToPortfolio_heap toCAIP19 initialState_ref args_ref h = Normal (r1, h1)
    ∧ accountsToPortfolio_heap toCAIP19 initialState_ref args_ref h1 = Normal (r2, h2)
    ∧ h `prefix_of` h1
    ∧ h1 `prefix_of` h2
    ∧ holds_args h2 args_ref args
    ∧ holds_initialState h2 initialState_ref
    ∧ Forall (λ r, length h ≤ r) (portfolio_refs h1 r1)
    ∧ Forall (λ r, length h1 ≤ r) (portfolio_refs h2 r2)
    ∧ read_portfolio h1 r1 = Some (accountsToPortfolio toCAIP19 args)
    ∧ read_portfolio h2 r2 = Some (accountsToPortfolio toCAIP19 args)
    ∧ read_portfolio h2 r1 = Some (accountsToPortfolio toCAIP19 args)
    ∧ r1 ≠ r2.
Proof.
  intros Hinit Hargs.
  destruct (accountsToPortfolio_heap_run toCAIP19 h initialState_ref args_ref args Hinit Hargs)
    as (m1 & arrays1 & E1 & Hfits1).
  set (p := accountsToPortfolio toCAIP19 args) in *.
  set (h1 := h ++ region (length h) p m1 arrays1) in *.
  assert (holds_initialState h1 initialState_ref) as Hinit1
    by apply holds_initialState_app, Hinit.
  assert (holds_args h1 args_ref args) as Hargs1 by apply holds_args_app, Hargs.
  destruct (accountsToPortfolio_heap_run toCAIP19 h1 initialState_ref args_ref args Hinit1 Hargs1)
    as (m2 & arrays2 & E2 & Hfits2).
  fold p in E2, Hfits2.
  exists (length h + 6), h1, (length h1 + 6), (h1 ++ region (length h1) p m2 arrays2).
  split; [exact E1|]. split; [exact E2|].
  split; [by apply prefix_app_r|]. split; [by apply prefix_app_r|].
  split; [by apply holds_args_app|]. split; [by apply holds_initialState_app|].
  split; [apply portfolio_refs_region|]. split; [apply portfolio_refs_region|].
  split.
  { unfold h1. rewrite <- (app_nil_r (region _ _ _ _)). by apply read_portfolio_region. }
  split.
  { rewrite <- (app_nil_r (region (length h1) _ _ _)). by apply read_portfolio_region. }
  split.
  { unfold h1. rewrite <- app_assoc. by apply read_portfolio_region. }
  unfold h1. rewrite length_app, region_length. lia.
Qed.

End heap_purity.

Lemma accountsToPortfolio_pure_witness :
  ∃ r1 h1 r2 h2,
    accountsToPortfolio_heap toCAIP19_model 6 20 sample_heap = Normal (r1, h1)
    ∧ accountsToPortfolio_heap toCAIP19_model 6 20 h1 = Normal (r2, h2)
    ∧ sample_heap `prefix_of` h1
    ∧ h1 `prefix_of` h2
    ∧ holds_args h2 20 sample_args
    ∧ holds_initialState h2 6
    ∧ Forall (λ r, length sample_heap ≤ r) (portfolio_refs h1 r1)
    ∧ Forall (λ r, length h1 ≤ r) (portfolio_refs h2 r2)
    ∧ read_portfolio h1 r1 = Some (accountsToPortfolio toCAIP19_model sample_args)
    ∧ read_portfolio h2 r2 = Some (accountsToPortfolio toCAIP19_model sample_args)
    ∧ read_portfolio h2 r1 = Some (accountsToPortfolio toCAIP19_model sample_args)
    ∧ r1 ≠ r2.
Proof.
  apply (accountsToPortfolio_pure toCAIP19_model sample_heap 6 20 sample_args).
  - exists 2, 5, 0, 1, 3, 4. repeat split.
  - exists [("eip155:1:0xF00", 11); ("cosmos:1:cosmos1", 13); ("bip122:1:xpub1", 19)].
    split; [reflexivity|].
    unfold sample_args. constructor.
    { split; [reflexivity|]. exists 10, (Some 9), None. repeat split.
      exists [7; 8]. split; [reflexivity|]. by repeat constructor. }
    constructor.
    { split; [reflexivity|]. exists 12, None, None. by repeat split. }
    constructor; [|constructor].
    split; [reflexivity|]. exists 18, None, (Some 17). repeat split.
    exists [14; 15; 16]. split; [reflexivity|]. by repeat constructor.
Defined.

(** ** The query function *)

Lemma object_set_keys {V} k (v : V) o :
  (object_set k v o).*1 = if decide (k ∈ o.*1) then o.*1 else o.*1 ++ [k].
Proof.
  unfold object_set. destruct (decide (k ∈ o.*1)) as [Hin|Hin].
  - rewrite <- list_fmap_compose. apply list_fmap_ext. intros i [k' v'] _. cbn.
    by destruct (decide (k' = k)) as [->|].
  - by rewrite fmap_app.
Qed.

Lemma object_set_NoDup {V} k (v : V) o : NoDup o.*1 → NoDup (object_set k v o).*1.
Proof.
  intros Hnd. rewrite object_set_keys. destruct (decide (k ∈ o.*1)); [done|].
  apply NoDup_app. split; [done|]. split; [|apply NoDup_singleton]. set_solver.
Qed.

Lemma elem_of_object_set {V} k (v : V) o e :
  e ∈ object_set k v o → e = (k, v) ∨ e ∈ o.
Proof.
  unfold object_set. destruct (decide (k ∈ o.*1)).
  - intros (e' & -> & He')%list_elem_of_fmap. destruct (decide (e'.1 = k)); [by left|by right].
  - intros [H|H%list_elem_of_singleton]%elem_of_app; [by right|by left].
Qed.

Section orchestrator_facts.

Variable toCAIP2 : ChainTypes → NetworkTypes → CAIP2.
Variable toCAIP10 : CAIP2 → string → CAIP10.
Variable settle : CAIP2 * string → PromiseSettledResult.

Lemma mapM_getAccount pubkeys w :
  mapM (getAccount_callback settle) pubkeys w
  = (settle <$> pubkeys, {| started := started w ++ pubkeys; console := console w |}).
Proof.
  revert w. induction pubkeys as [|e l IH]; intros [st co]; cbn [mapM fmap list_fmap].
  - unfold ret. cbn. by rewrite app_nil_r.
  - unfold bind, getAccount_callback at 1. rewrite IH. unfold ret. cbn.
    by rewrite <- app_assoc.
Qed.

Lemma reduceM_maybeAccounts l acc w :
  reduceM (reduce_maybeAccount toCAIP2 toCAIP10) l acc w
  = (foldl (store_value toCAIP2 toCAIP10) acc (omap fulfilled_value l),
     {| started := started w;
        console := console w ++ ((λ r, "portfolioApi: " +:+ r) <$> omap rejected_reason l) |}).
Proof.
  unfold store_value. revert acc w. induction l as [|cur l IH]; intros acc [st co]; cbn [reduceM omap list_omap].
  - unfold ret. cbn. by rewrite app_nil_r.
  - unfold bind. destruct cur as [value|reason]; cbn [reduce_maybeAccount fulfilled_value rejected_reason].
    + unfold ret at 1. rewrite IH. reflexivity.
    + unfold bind, console_error, ret at 1. rewrite IH. cbn. by rewrite <- app_assoc.
Qed.

Lemma fold_object_set_NoDup values (acc : list (string * Account)) :
  NoDup acc.*1 → NoDup (foldl (store_value toCAIP2 toCAIP10) acc values).*1.
Proof.
  unfold store_value. revert acc. induction values as [|v values IH]; intros acc Hnd; cbn [foldl]; [done|].
  by apply IH, object_set_NoDup.
Qed.

Lemma fold_object_set_keys values (acc : list (string * Account)) id :
  id ∈ (foldl (store_value toCAIP2 toCAIP10) acc values).*1
  ↔ id ∈ acc.*1 ∨ ∃ value, value ∈ values ∧ accountId toCAIP2 toCAIP10 value = id.
Proof.
  unfold store_value. revert acc. induction values as [|v values IH]; intros acc; cbn [foldl].
  - split; [by left|]. intros [H|(v & Hv & _)]; [done|]. by apply elem_of_nil in Hv.
  - rewrite IH, object_set_keys. split.
    + intros [H|(v' & Hv' & <-)].
      * destruct (decide (accountId toCAIP2 toCAIP10 v ∈ acc.*1)); [by left|].
        apply elem_of_app in H as [H|H%list_elem_of_singleton]; [by left|].
        right. exists v. split; [left|done].
      * right. exists v'. split; [by right|done].
    + intros [H|(v' & Hv' & <-)].
      * left. destruct (decide (accountId toCAIP2 toCAIP10 v ∈ acc.*1)); [done|]. apply elem_of_app. by left.
      * apply elem_of_cons in Hv' as [->|Hv'].
        -- left. destruct (decide (accountId toCAIP2 toCAIP10 v ∈ acc.*1)); [done|].
           apply elem_of_app. right. by apply list_elem_of_singleton.
        -- right. by exists v'.
Qed.

Lemma fold_object_set_elem values (acc : list (string * Account)) id value :
  (id, value) ∈ foldl (store_value toCAIP2 toCAIP10) acc values →
  (id, value) ∈ acc ∨ (value ∈ values ∧ id = accountId toCAIP2 toCAIP10 value).
Proof.
  unfold store_value. revert acc. induction values as [|v values IH]; intros acc; cbn [foldl]; [by left|].
  intros [H|[H ->]]%IH.
  - apply elem_of_object_set in H as [H|H]; [|by left].
    injection H as -> ->. right. split; [left|done].
  - right. split; [by right|done].
Qed.

Lemma fold_object_set_fresh values (acc : list (string * Account)) :
  NoDup (acc.*1 ++ (accountId toCAIP2 toCAIP10 <$> values)) →
  foldl (store_value toCAIP2 toCAIP10) acc values = acc ++ ((λ value, (accountId toCAIP2 toCAIP10 value, value)) <$> values).
Proof.
  unfold store_value. revert acc. induction values as [|v values IH]; intros acc Hnd; cbn [foldl fmap list_fmap].
  - by rewrite app_nil_r.
  - assert (Hv : accountId toCAIP2 toCAIP10 v ∉ acc.*1).
    { apply NoDup_app in Hnd as (_ & Hd & _). intros Hin. apply (Hd _ Hin). left. }
    assert (E : object_set (accountId toCAIP2 toCAIP10 v) v acc = acc ++ [(accountId toCAIP2 toCAIP10 v, v)]).
    { unfold object_set. by rewrite decide_False. }
    rewrite E, IH.
    + by rewrite <- app_assoc.
    + rewrite fmap_app. cbn. by rewrite <- app_assoc.
Qed.

(** C9.  The query function starts one request per entry of [pubkeys] and
    gets one settled result per entry.  Every rejected one leaves a line on
    the console and nothing in the data; every fulfilled one is stored
    under its composite account identifier.  The function always answers
    with data, never with an error. *)
Theorem queryFn_partial_failure (pubkeys : list (string * string)) (w : World) :
  let settled := settle <$> pubkeys in
  let values := omap fulfilled_value settled in
  let reasons := omap rejected_reason settled in
  let out := queryFn toCAIP2 toCAIP10 settle pubkeys w in
  length settled = length pubkeys
  ∧ started out.2 = started w ++ pubkeys
  ∧ console out.2 = console w ++ ((λ r, "portfolioApi: " +:+ r) <$> reasons)
  ∧ ∃ data,
      out.1 = QueryData data
      ∧ data = foldl (store_value toCAIP2 toCAIP10) [] values
      ∧ NoDup data.*1
      ∧ (∀ id, id ∈ data.*1 ↔ ∃ value, value ∈ values ∧ accountId toCAIP2 toCAIP10 value = id)
      ∧ (∀ id value, (id, value) ∈ data → value ∈ values ∧ id = accountId toCAIP2 toCAIP10 value)
      ∧ (NoDup (accountId toCAIP2 toCAIP10 <$> values) →
         data = (λ value, (accountId toCAIP2 toCAIP10 value, value)) <$> values).
Proof.
  intros settled values reasons out.
  assert (Hout : out = (QueryData (foldl (store_value toCAIP2 toCAIP10) [] values),
                        {| started := started w ++ pubkeys;
                           console := console w ++ ((λ r, "portfolioApi: " +:+ r) <$> reasons) |})).
  { subst out. unfold queryFn. destruct pubkeys as [|e l].
    - destruct w. unfold ret. cbn. by rewrite !app_nil_r.
    - unfold bind. rewrite mapM_getAccount, reduceM_maybeAccounts. reflexivity. }
  rewrite Hout. cbn [fst snd started console].
  split; [apply length_fmap|]. split; [done|]. split; [done|].
  eexists. split; [reflexivity|]. split; [reflexivity|]. split; [|split; [|split]].
  - apply fold_object_set_NoDup. constructor.
  - intros id. rewrite fold_object_set_keys. split; [|by right].
    intros [H|H]; [|done]. by apply elem_of_nil in H.
  - intros id value [H|H]%fold_object_set_elem; [|done]. by apply elem_of_nil in H.
  - intros Hnd. by rewrite fold_object_set_fresh.
Qed.

End orchestrator_facts.

(** ** The hook *)

(** C2 (the code does not have this property).  The effect dispatches
    nothing when the asset is in the store, and when it is not it reads
    [caip19] of [undefined] and throws: no state makes it dispatch
    [fetchAsset]. *)
Theorem useFetchAsset_effect_throws
    (chain : ChainTypes) (tokenId : option string) (state : ReduxState) :
  useFetchAsset_effect (useFetchAsset_select chain tokenId state)
  = match state_assets state !! default (ChainTypes_value chain) tokenId with
    | Some _ => Normal []
    | None => Throw "TypeError: Cannot read properties of undefined (reading 'caip19')"
    end
  ∧ useFetchAsset_effect
      (useFetchAsset_select Ethereum None {| state_assets := ∅; state_portfolio := initialState |})
    = Throw "TypeError: Cannot read properties of undefined (reading 'caip19')".
Proof.
  split; [|reflexivity].
  unfold useFetchAsset_select, useFetchAsset_effect.
  destruct (state_assets state !! default (ChainTypes_value chain) tokenId) as [asset|] eqn:E.
  - by rewrite bool_decide_eq_true_2.
  - rewrite bool_decide_eq_false_2; [reflexivity|]. by intros [? ?].
Qed.

(** ** Fiat values *)

Lemma Qnum_neg_comp q r : (q == r)%Q → (Qnum q <? 0)%Z = (Qnum r <? 0)%Z.
Proof.
  unfold Qeq. destruct q as [qn qd], r as [rn rd]; cbn [Qnum Qden]. intros E.
  destruct (Z.ltb_spec qn 0), (Z.ltb_spec rn 0); try reflexivity; nia.
Qed.

Lemma bn_optional_coerced o :
  (bn (V_optional o) = NaN ∧ coerced_value o = 0%Q)
  ∨ ∃ b, bn (V_optional o) = Fin b ∧ coerced_value o = value b.
Proof.
  destruct o as [s|]; cbn [V_optional bn coerced_value]; [|by left].
  destruct (of_string s) as [|b]; [by left|]. right. by exists b.
Qed.

Lemma value_shift_div a n :
  (value (mkDec (mant a) (dp a + n)) == value a / inject_Z (pow10 n))%Q.
Proof.
  rewrite <- (value_shift a n). field.
  pose proof (pow10_pos n) as Hpos. intros H0. unfold Qeq, inject_Z in H0. cbn in H0. lia.
Qed.

(** The product the selectors compute denotes the fiat value of the spec. *)
Lemma fiat_product o precision pr dprice :
  of_string pr = Fin dprice →
  ∃ d, times (bnOrZero (fromBaseUnit (V_optional o) precision)) (bn (V_string pr)) = Fin d
       ∧ (value d == spec_fiatValue o precision pr)%Q.
Proof.
  intros Hpr. unfold spec_fiatValue, fromBaseUnit, bnOrZero.
  cbn [bn coerced_value]. rewrite Hpr.
  destruct (bn_optional_coerced o) as [[-> ->]|(b & -> & ->)]; cbn [shiftedBy_neg isFinite times].
  - eexists. split; [reflexivity|]. rewrite value_times, value_zero.
    unfold Qdiv. ring.
  - eexists. split; [reflexivity|]. by rewrite value_times, value_shift_div.
Qed.

Lemma toFixed_2_spec a q : (value a == q)%Q → toFixed 2 (Fin a) = spec_toFixed2 q.
Proof.
  intros E. unfold toFixed, spec_toFixed2, Qround_cents.
  rewrite rescale_spec. change (mant a) with (Qnum (value a)).
  rewrite (Qnum_neg_comp _ _ E). do 3 f_equal.
  apply Qround_half_up_comp. by rewrite E.
Qed.

(** C6, as amended.  For an asset with a known price that is a decimal
    numeral and a known precision other than 0, [selectAssetFiatBalance]
    returns the balance converted from base units times the price, rounded
    half up to two decimals and written with two decimals; an absent or
    invalid balance counts as zero.  It returns ['0'] when the price or the
    precision is unknown.  Balance 150000000 with precision 8 and price
    2.00 gives 3.00. *)
Theorem assetFiatBalance_rounded
    (assets : gmap string Asset) (marketData : gmap string MarketData)
    (cryptoBalances : gmap string string) (id : string) :
  (marketData !! id = None ∨ assets !! id = None →
   assetFiatBalance assets marketData cryptoBalances id = "0")
  ∧ (∀ a m dprice,
       assets !! id = Some a →
       marketData !! id = Some m →
       asset_precision a ≠ 0 →
       of_string (price m) = Fin dprice →
       assetFiatBalance assets marketData cryptoBalances id
       = spec_toFixed2 (spec_fiatValue (cryptoBalances !! id) (asset_precision a) (price m)))
  ∧ assetFiatBalance {[ id := {| asset_caip19 := id; asset_precision := 8 |} ]}
                     {[ id := {| price := "2.00" |} ]}
                     {[ id := "150000000" ]} id
    = "3.00".
Proof.
  split; [|split].
  - unfold assetFiatBalance. intros [->| ->]; [reflexivity|].
    by destruct (marketData !! id).
  - intros a m dprice Ha Hm Hprec Hprice. unfold assetFiatBalance.
    rewrite Ha, Hm. cbn [fmap option_fmap option_map].
    assert (Hne : price m ≠ "") by (intros E; rewrite E in Hprice; discriminate).
    rewrite bool_decide_eq_false_2 by done.
    replace (asset_precision a =? 0) with false by (symmetry; by apply Nat.eqb_neq).
    cbn [orb].
    destruct (fiat_product (cryptoBalances !! id) (asset_precision a) (price m) dprice Hprice)
      as (d & -> & Hd).
    by apply toFixed_2_spec.
  - unfold assetFiatBalance. rewrite !lookup_singleton_eq. reflexivity.
Qed.

(** ** The total *)

Lemma totalFiat_step_sound assets marketData a0 id bal :
  priced assets marketData id →
  ∃ a1, totalFiat_step assets marketData (Fin a0) (id, bal) = Fin a1
        ∧ (value a1 == value a0 + spec_assetFiat assets marketData id (Some bal))%Q.
Proof.
  intros Hp. unfold totalFiat_step, spec_assetFiat.
  destruct (marketData !! id) as [m|] eqn:Hm; cbn [fmap option_fmap option_map].
  2: { exists a0. split; [reflexivity|ring]. }
  destruct (assets !! id) as [a|] eqn:Ha; cbn [fmap option_fmap option_map].
  2: { exists a0. split; [reflexivity|ring]. }
  destruct (Hp a m Ha Hm) as [Hprec Hfin].
  destruct (of_string (price m)) as [|dprice] eqn:Hprice; [discriminate|].
  assert (Hne : price m ≠ "") by (intros E; rewrite E in Hprice; discriminate).
  rewrite bool_decide_eq_false_2 by done.
  replace (asset_precision a =? 0) with false by (symmetry; by apply Nat.eqb_neq).
  cbn [orb].
  destruct (fiat_product (Some bal) (asset_precision a) (price m) dprice Hprice)
    as (d & Hd & Hv).
  cbn [V_optional] in Hd. rewrite Hd. cbn [plus].
  eexists. split; [reflexivity|]. by rewrite value_plus, Hv.
Qed.

Lemma totalFiat_fold_sound assets marketData (l : list (string * string)) a0 :
  Forall (λ entry, priced assets marketData entry.1) l →
  ∃ a, foldl (totalFiat_step assets marketData) (Fin a0) l = Fin a
       ∧ (value a == value a0
          + foldr (λ entry acc, spec_assetFiat assets marketData entry.1 (Some entry.2) + acc)
                  0 l)%Q.
Proof.
  intros Hl. revert a0. induction Hl as [|[id bal] l Hp _ IH]; intros a0; cbn [foldl foldr].
  - exists a0. split; [reflexivity|ring].
  - destruct (totalFiat_step_sound assets marketData a0 id bal Hp) as (a1 & -> & H1).
    destruct (IH a1) as (a & -> & Ha). exists a. split; [reflexivity|].
    rewrite Ha, H1. cbn [fst snd]. ring.
Qed.

Lemma decimalPlaces_value n a :
  ∃ d, decimalPlaces n (Fin a) = Fin d
       ∧ (value d * inject_Z (pow10 n) == inject_Z (rescale n a))%Q.
Proof.
  unfold decimalPlaces, rescale. destruct (Nat.leb_spec (dp a) n) as [H|H].
  - exists a. split; [reflexivity|].
    unfold value, Qeq, Qmult, inject_Z; cbn [Qnum Qden].
    rewrite Pos2Z.inj_mul, pow10_den, (pow10_split n (dp a)) by lia.
    change (Z.pos 1) with 1%Z. ring.
  - eexists. split; [reflexivity|].
    unfold value, Qeq, Qmult, inject_Z; cbn [Qnum Qden mant dp].
    rewrite Pos2Z.inj_mul, pow10_den. change (Z.pos 1) with 1%Z. ring.
Qed.

(** Where no held asset trips the guard with a known price and precision,
    the total is the exact sum of the spec rounded to hundredths. *)
Lemma totalFiatBalance_sound assets marketData (cryptoBalances : gmap string string) :
  (∀ id bal, cryptoBalances !! id = Some bal → priced assets marketData id) →
  ∃ d, totalFiatBalance assets marketData cryptoBalances = Fin d
       ∧ (value d * 100
          == inject_Z (Qround_cents (spec_totalFiat assets marketData cryptoBalances)))%Q.
Proof.
  intros Hp. unfold totalFiatBalance, spec_totalFiat. cbn [bn].
  destruct (totalFiat_fold_sound assets marketData (map_to_list cryptoBalances) (mkDec 0 0))
    as (a & -> & Ha).
  { apply Forall_forall. intros [id bal] Hin. apply elem_of_map_to_list in Hin. by eapply Hp. }
  destruct (decimalPlaces_value 2 a) as (d & -> & Hd).
  exists d. split; [reflexivity|].
  change 100%Q with (inject_Z (pow10 2)). rewrite Hd, rescale_spec.
  unfold Qround_cents. apply inject_Z_injective, Qround_half_up_comp.
  rewrite Ha, value_zero. change (inject_Z (pow10 2)) with 100%Q. ring.
Qed.

(** C5 (the code does not have this property).  An asset with precision 0
    has a precision, and its fiat balance belongs in the sum; the guard
    [!precision] takes 0 for a missing precision and leaves the asset out.
    5 base units at precision 0 and price 2.00 are worth 10.00, and the
    total is 0. *)
Theorem selectTotalFiatBalance_zero_precision :
  let assets : gmap string Asset := {[ "x" := {| asset_caip19 := "x"; asset_precision := 0 |} ]} in
  let marketData : gmap string MarketData := {[ "x" := {| price := "2.00" |} ]} in
  let portfolio :=
    {| accounts := PortfolioAccounts.mk {[ "a" := ["x"] ]} ["a"];
       balances := PortfolioBalances.mk {[ "x" := "5" ]} ["x"] |} in
  let state := {| state_assets := assets; state_portfolio := portfolio |} in
  selectTotalFiatBalance state_assets (λ _, marketData) state = Fin (mkDec 0 0)
  ∧ Qround_cents (spec_totalFiat assets marketData (selectPortfolioCryptoBalances state)) = 1000%Z.
Proof.
  cbv zeta. unfold selectTotalFiatBalance, selectPortfolioCryptoBalances.
  cbn [state_assets state_portfolio balances PortfolioBalances.byId].
  unfold totalFiatBalance, spec_totalFiat. rewrite map_to_list_singleton.
  cbn [foldl foldr fst snd]. unfold totalFiat_step, spec_assetFiat.
  rewrite !lookup_singleton_eq. split; reflexivity.
Qed.

(** ** The theorems at sample inputs *)

Lemma sample_args_wf : wf_args sample_args.
Proof. unfold wf_args. apply (bool_decide_unpack _). vm_compute. exact I. Defined.

Lemma assets_have_balances_witness :
  is_Some (PortfolioBalances.byId (balances (accountsToPortfolio toCAIP19_model sample_args))
             !! "ethereum:mainnet/erc20:0xabc1").
Proof.
  apply (accountsToPortfolio_assets_have_balances toCAIP19_model sample_args "eip155:1:0xF00"
           ["ethereum:MAINNET/native"; "ethereum:mainnet/erc20:0xabc1";
            "ethereum:mainnet/erc20:0xdef2"]).
  - vm_compute. reflexivity.
  - apply list_elem_of_further, list_elem_of_here.
Defined.

(** Two Bitcoin accounts of one network record the same identifier. *)
Lemma balance_ids_duplicate :
  PortfolioBalances.ids
    (balances (accountsToPortfolio toCAIP19_model
                 [("bip122:1:xpub1", sample_btc); ("bip122:1:zpub2", sample_btc2)]))
  = ["bitcoin:MAINNET/native"; "bitcoin:MAINNET/native"]
  ∧ ¬ NoDup (PortfolioBalances.ids
               (balances (accountsToPortfolio toCAIP19_model
                            [("bip122:1:xpub1", sample_btc); ("bip122:1:zpub2", sample_btc2)]))).
Proof.
  assert (E : PortfolioBalances.ids
                (balances (accountsToPortfolio toCAIP19_model
                             [("bip122:1:xpub1", sample_btc); ("bip122:1:zpub2", sample_btc2)]))
              = ["bitcoin:MAINNET/native"; "bitcoin:MAINNET/native"]) by (vm_compute; reflexivity).
  split; [exact E|]. rewrite E. intros Hnd. apply NoDup_cons in Hnd as [Hnot _].
  apply Hnot. left.
Qed.

(** A record of another chain kind still gets an account entry. *)
Lemma other_chain_account_entry :
  PortfolioAccounts.byId (accounts (accountsToPortfolio toCAIP19_model [("cosmos:1:cosmos1", sample_other)]))
    !! "cosmos:1:cosmos1" = Some []
  ∧ PortfolioAccounts.ids (accounts (accountsToPortfolio toCAIP19_model [("cosmos:1:cosmos1", sample_other)]))
    = ["cosmos:1:cosmos1"].
Proof. split; vm_compute; reflexivity. Qed.

Lemma other_chain_witness :
  balances (accountsToPortfolio toCAIP19_model sample_args)
  = balances (accountsToPortfolio toCAIP19_model
                [("eip155:1:0xF00", sample_eth); ("bip122:1:xpub1", sample_btc)])
  ∧ PortfolioAccounts.byId (accounts (accountsToPortfolio toCAIP19_model sample_args))
      !! "cosmos:1:cosmos1" = Some []
  ∧ "cosmos:1:cosmos1"
      ∈ PortfolioAccounts.ids (accounts (accountsToPortfolio toCAIP19_model sample_args)).
Proof.
  apply (accountsToPortfolio_other_chain toCAIP19_model
           [("eip155:1:0xF00", sample_eth)] "cosmos:1:cosmos1" sample_other
           [("bip122:1:xpub1", sample_btc)]).
  - discriminate.
  - discriminate.
  - exact sample_args_wf.
Defined.

Lemma bitcoin_witness :
  PortfolioAccounts.byId (accounts (accountsToPortfolio toCAIP19_model sample_args))
    !! "bip122:1:xpub1" = Some ["bitcoin:MAINNET/native"]
  ∧ PortfolioBalances.byId (balances (accountsToPortfolio toCAIP19_model sample_args))
      !! "bitcoin:MAINNET/native" = Some "350".
Proof.
  destruct (accountsToPortfolio_bitcoin toCAIP19_model
              [("eip155:1:0xF00", sample_eth); ("cosmos:1:cosmos1", sample_other)]
              "bip122:1:xpub1" sample_btc [] eq_refl sample_args_wf)
    as (_ & Hacc & Hbal & _ & Hsum & _).
  split; [exact Hacc|].
  rewrite <- (Hsum eq_refl). apply Hbal. apply not_elem_of_nil.
Defined.

Lemma ethereum_witness :
  PortfolioAccounts.byId (accounts (accountsToPortfolio toCAIP19_model sample_args))
    !! "eip155:1:0xF00"
  = Some ["ethereum:MAINNET/native"; "ethereum:mainnet/erc20:0xabc1";
          "ethereum:mainnet/erc20:0xdef2"]
  ∧ PortfolioBalances.byId (balances (accountsToPortfolio toCAIP19_model sample_args))
      !! "ethereum:mainnet/erc20:0xdef2" = Some "9".
Proof.
  destruct (accountsToPortfolio_ethereum toCAIP19_model []
              "eip155:1:0xF00" sample_eth
              [("cosmos:1:cosmos1", sample_other); ("bip122:1:xpub1", sample_btc)]
              eq_refl sample_args_wf)
    as (_ & _ & Hacc & Hbal & _).
  split; [exact Hacc|].
  apply (Hbal 2); [reflexivity|apply not_elem_of_nil|].
  vm_compute. intros H. repeat (apply elem_of_cons in H as [H|H]; [discriminate H|]).
  by apply elem_of_nil in H.
Defined.

(** A product with more than two decimals is not what the selector returns. *)
Lemma assetFiatBalance_not_exact :
  assetFiatBalance {[ "x" := {| asset_caip19 := "x"; asset_precision := 3 |} ]}
                   {[ "x" := {| price := "1" |} ]} {[ "x" := "1005" ]} "x" = "1.01"
  ∧ (spec_fiatValue (Some "1005") 3 "1" == 1005 # 1000)%Q
  ∧ ¬ (coerced_value (Some "1.01") == spec_fiatValue (Some "1005") 3 "1")%Q.
Proof.
  split; [|split].
  - unfold assetFiatBalance. rewrite !lookup_singleton_eq. reflexivity.
  - reflexivity.
  - intros H. vm_compute in H. discriminate H.
Qed.

Lemma assetFiatBalance_witness :
  assetFiatBalance {[ "x" := {| asset_caip19 := "x"; asset_precision := 3 |} ]}
                   {[ "x" := {| price := "1" |} ]} {[ "x" := "1005" ]} "x"
  = spec_toFixed2 (spec_fiatValue (Some "1005") 3 "1").
Proof.
  destruct (assetFiatBalance_rounded
              {[ "x" := {| asset_caip19 := "x"; asset_precision := 3 |} ]}
              {[ "x" := {| price := "1" |} ]} {[ "x" := "1005" ]} "x") as (_ & H & _).
  rewrite (H {| asset_caip19 := "x"; asset_precision := 3 |} {| price := "1" |} (mkDec 1 0)).
  - by rewrite lookup_singleton_eq.
  - apply lookup_singleton_eq.
  - apply lookup_singleton_eq.
  - discriminate.
  - reflexivity.
Defined.

(** * Further properties *)

(** ** The account index and the balance index *)

Section normalizer_more.

Variable toCAIP19 : ToCAIP19Args → CAIP19.

Lemma dom_fold_accounts_byId args (m : gmap string (list string)) :
  dom (foldl (λ m e, <[e.1 := (recorded toCAIP19 e.2).*1]> m) m args)
  = dom m ∪ list_to_set args.*1.
Proof.
  revert m. induction args as [|e args IH]; intros m; cbn [foldl].
  - set_solver.
  - rewrite IH, dom_insert_L. set_solver.
Qed.

(** [accounts.ids] lists the keys of the argument in order, and these are
    exactly the keys of [accounts.byId]. *)
Theorem accountsToPortfolio_account_ids (args : list (string * Account)) :
  PortfolioAccounts.ids (accounts (accountsToPortfolio toCAIP19 args)) = args.*1
  ∧ ∀ accountId,
      accountId ∈ PortfolioAccounts.ids (accounts (accountsToPortfolio toCAIP19 args))
      ↔ is_Some (PortfolioAccounts.byId (accounts (accountsToPortfolio toCAIP19 args))
                   !! accountId).
Proof.
  unfold accountsToPortfolio. rewrite fold_accounts_ids, fold_accounts_byId.
  cbn [initialState accounts PortfolioAccounts.ids PortfolioAccounts.byId app].
  split; [reflexivity|]. intros accountId.
  rewrite <- elem_of_dom, dom_fold_accounts_byId, dom_empty_L, elem_of_union,
    elem_of_list_to_set.
  split; [by right|]. intros [H|H]; [|done]. by apply elem_of_empty in H.
Qed.

Lemma accountsToPortfolio_asset_list args k a :
  wf_args args → (k, a) ∈ args →
  PortfolioAccounts.byId (accounts (accountsToPortfolio toCAIP19 args)) !! k
  = Some (recorded toCAIP19 a).*1.
Proof.
  intros Hwf (args1 & args2 & ->)%list_elem_of_split.
  unfold accountsToPortfolio. rewrite fold_accounts_byId.
  apply fold_accounts_byId_last. by eapply wf_args_later.
Qed.

Lemma length_recordings args :
  length (recordings toCAIP19 args) = sum_list ((λ e, length (recorded toCAIP19 e.2)) <$> args).
Proof.
  induction args as [|[k a] args IH]; [reflexivity|].
  rewrite recordings_cons, length_app, IH. reflexivity.
Qed.

(** For an argument with distinct keys, [accounts.ids] has no duplicates and
    the asset lists of the accounts together are as long as [balances.ids]:
    every recording is in one asset list and once in [balances.ids]. *)
Theorem accountsToPortfolio_asset_lists_total (args : list (string * Account)) :
  wf_args args →
  NoDup (PortfolioAccounts.ids (accounts (accountsToPortfolio toCAIP19 args)))
  ∧ sum_list
      ((λ k, length
               (default []
                  (PortfolioAccounts.byId (accounts (accountsToPortfolio toCAIP19 args)) !! k)))
         <$> PortfolioAccounts.ids (accounts (accountsToPortfolio toCAIP19 args)))
    = length (PortfolioBalances.ids (balances (accountsToPortfolio toCAIP19 args))).
Proof.
  intros Hwf.
  assert (E : PortfolioAccounts.ids (accounts (accountsToPortfolio toCAIP19 args)) = args.*1).
  { unfold accountsToPortfolio. by rewrite fold_accounts_ids. }
  rewrite E. split; [exact Hwf|].
  unfold accountsToPortfolio at 2. rewrite fold_balances_ids.
  cbn [initialState balances PortfolioBalances.ids app].
  rewrite length_fmap, length_recordings, <- list_fmap_compose.
  f_equal. apply list_fmap_ext. intros i [k a] Hi. cbn.
  rewrite (accountsToPortfolio_asset_list args k a Hwf) by (by eapply list_elem_of_lookup_2).
  cbn. by rewrite length_fmap.
Qed.

Lemma insert_all_snoc ws w m : insert_all (ws ++ [w]) m = <[w.1 := w.2]> (insert_all ws m).
Proof. by rewrite insert_all_app. Qed.

Lemma lookup_insert_all ws (m : gmap string string) id :
  insert_all ws m !! id
  = match last (filter (λ w, w.1 = id) ws) with
    | Some w => Some w.2
    | None => m !! id
    end.
Proof.
  induction ws as [|w ws IH] using rev_ind; [reflexivity|].
  rewrite insert_all_snoc, filter_app, lookup_insert.
  destruct (decide (w.1 = id)) as [Hw|Hw].
  - rewrite filter_cons_True, filter_nil, last_snoc by done. reflexivity.
  - rewrite filter_cons_False, filter_nil, app_nil_r by done. exact IH.
Qed.

(** The balance index keeps, for each identifier, the balance of the last
    recording of it: a balance recorded earlier for the same identifier is
    replaced, not added to.  Of two Ethereum accounts of one network, it
    is the second one's native balance that is stored. *)
Theorem accountsToPortfolio_last_balance (args : list (string * Account)) (assetId : string) :
  PortfolioBalances.byId (balances (accountsToPortfolio toCAIP19 args)) !! assetId
  = snd <$> last (filter (λ w, w.1 = assetId) (recordings toCAIP19 args))
  ∧ ∀ k1 a1 k2 a2,
      chain a1 = Ethereum → chain a2 = Ethereum → network a1 = network a2 →
      tokens (chainSpecific a2) = None →
      PortfolioBalances.byId (balances (accountsToPortfolio toCAIP19 [(k1, a1); (k2, a2)]))
        !! nativeCAIP19 toCAIP19 Ethereum (network a1)
      = Some (balance a2).
Proof.
  assert (H : ∀ args id,
             PortfolioBalances.byId (balances (accountsToPortfolio toCAIP19 args)) !! id
             = snd <$> last (filter (λ w, w.1 = id) (recordings toCAIP19 args))).
  { intros args' id. unfold accountsToPortfolio.
    rewrite fold_balances_byId, lookup_insert_all.
    cbn [initialState balances PortfolioBalances.byId].
    destruct (last _); [reflexivity|apply lookup_empty]. }
  split; [apply H|].
  intros k1 a1 k2 a2 H1 H2 Hnet Htok. rewrite H.
  rewrite !recordings_cons. unfold recordings at 1. cbn [mbind list_bind app].
  rewrite app_nil_r, filter_app.
  assert (Hrec2 : recorded toCAIP19 a2
                  = [(nativeCAIP19 toCAIP19 Ethereum (network a1), balance a2)]).
  { unfold recorded. by rewrite H2, Htok, Hnet. }
  rewrite Hrec2, filter_cons_True, filter_nil by done.
  by rewrite last_snoc.
Qed.

Lemma insert_all_union ws (m : gmap string string) : insert_all ws m = insert_all ws ∅ ∪ m.
Proof.
  induction ws as [|w ws IH] using rev_ind.
  - cbn. by rewrite (left_id_L ∅ (∪)).
  - by rewrite !insert_all_snoc, IH, insert_union_l.
Qed.

Lemma fold_accounts_byId_union args (m : gmap string (list string)) :
  foldl (λ m e, <[e.1 := (recorded toCAIP19 e.2).*1]> m) m args
  = foldl (λ m e, <[e.1 := (recorded toCAIP19 e.2).*1]> m) ∅ args ∪ m.
Proof.
  induction args as [|e args IH] using rev_ind.
  - cbn. by rewrite (left_id_L ∅ (∪)).
  - rewrite !foldl_app. cbn [foldl]. rewrite IH. apply insert_union_l.
Qed.

(** The portfolio of two lists of entries one after the other: the [ids]
    arrays are those of the parts in order, and in both indexes an entry of
    the second part replaces an entry of the first with the same key. *)
Theorem accountsToPortfolio_app (args1 args2 : list (string * Account)) :
  PortfolioAccounts.ids (accounts (accountsToPortfolio toCAIP19 (args1 ++ args2)))
  = PortfolioAccounts.ids (accounts (accountsToPortfolio toCAIP19 args1))
    ++ PortfolioAccounts.ids (accounts (accountsToPortfolio toCAIP19 args2))
  ∧ PortfolioBalances.ids (balances (accountsToPortfolio toCAIP19 (args1 ++ args2)))
    = PortfolioBalances.ids (balances (accountsToPortfolio toCAIP19 args1))
      ++ PortfolioBalances.ids (balances (accountsToPortfolio toCAIP19 args2))
  ∧ PortfolioAccounts.byId (accounts (accountsToPortfolio toCAIP19 (args1 ++ args2)))
    = PortfolioAccounts.byId (accounts (accountsToPortfolio toCAIP19 args2))
      ∪ PortfolioAccounts.byId (accounts (accountsToPortfolio toCAIP19 args1))
  ∧ PortfolioBalances.byId (balances (accountsToPortfolio toCAIP19 (args1 ++ args2)))
    = PortfolioBalances.byId (balances (accountsToPortfolio toCAIP19 args2))
      ∪ PortfolioBalances.byId (balances (accountsToPortfolio toCAIP19 args1)).
Proof.
  unfold accountsToPortfolio.
  rewrite !fold_accounts_ids, !fold_balances_ids, !fold_accounts_byId, !fold_balances_byId.
  cbn [initialState accounts balances PortfolioAccounts.ids PortfolioAccounts.byId
       PortfolioBalances.ids PortfolioBalances.byId app].
  rewrite recordings_app, !fmap_app, insert_all_app, foldl_app.
  repeat split.
  - apply fold_accounts_byId_union.
  - apply insert_all_union.
Qed.

End normalizer_more.

(** ** Sums do not depend on the order of their terms *)

Lemma plus_dec_three a x y :
  plus_dec (plus_dec a x) y
  = mkDec (mant a * pow10 (Nat.max (dp a) (Nat.max (dp x) (dp y)) - dp a)
           + mant x * pow10 (Nat.max (dp a) (Nat.max (dp x) (dp y)) - dp x)
           + mant y * pow10 (Nat.max (dp a) (Nat.max (dp x) (dp y)) - dp y))%Z
          (Nat.max (dp a) (Nat.max (dp x) (dp y))).
Proof.
  unfold plus_dec; cbn [mant dp].
  set (s1 := Nat.max (dp a) (dp x)).
  replace (Nat.max s1 (dp y)) with (Nat.max (dp a) (Nat.max (dp x) (dp y))) by lia.
  set (s := Nat.max (dp a) (Nat.max (dp x) (dp y))).
  f_equal.
  replace (s - dp a) with ((s1 - dp a) + (s - s1)) by lia.
  replace (s - dp x) with ((s1 - dp x) + (s - s1)) by lia.
  rewrite !pow10_add. ring.
Qed.

Lemma plus_dec_swap a x y : plus_dec (plus_dec a x) y = plus_dec (plus_dec a y) x.
Proof.
  rewrite !plus_dec_three.
  replace (Nat.max (dp a) (Nat.max (dp y) (dp x)))
    with (Nat.max (dp a) (Nat.max (dp x) (dp y))) by lia.
  f_equal. ring.
Qed.

Lemma plus_swap b x y : plus (plus b x) y = plus (plus b y) x.
Proof.
  destruct b as [|a], x as [|x], y as [|y]; cbn [plus]; try reflexivity.
  by rewrite plus_dec_swap.
Qed.

Lemma foldl_Permutation {A B} (f : B → A → B) :
  (∀ b x y, f (f b x) y = f (f b y) x) →
  ∀ l1 l2, l1 ≡ₚ l2 → ∀ b, foldl f b l1 = foldl f b l2.
Proof.
  intros Hf l1 l2 Hp. induction Hp as [|x l1 l2 _ IH|x y l|l1 l2 l3 _ IH1 _ IH2]; intros b; cbn [foldl].
  - reflexivity.
  - apply IH.
  - by rewrite Hf.
  - by rewrite IH1.
Qed.

Lemma totalFiat_step_swap assets marketData b e1 e2 :
  totalFiat_step assets marketData (totalFiat_step assets marketData b e1) e2
  = totalFiat_step assets marketData (totalFiat_step assets marketData b e2) e1.
Proof.
  destruct e1 as [id1 bal1], e2 as [id2 bal2]. unfold totalFiat_step.
  destruct (price <$> marketData !! id1) as [p1|], (asset_precision <$> assets !! id1) as [c1|],
    (price <$> marketData !! id2) as [p2|], (asset_precision <$> assets !! id2) as [c2|];
    try reflexivity;
    destruct (bool_decide (p1 = "") || (c1 =? 0)), (bool_decide (p2 = "") || (c2 =? 0));
    try reflexivity.
  apply plus_swap.
Qed.

Lemma foldl_snoc_Permutation {A B} (f : B → A → B) :
  (∀ b x y, f (f b x) y = f (f b y) x) →
  ∀ l x b, foldl f b (x :: l) = f (foldl f b l) x.
Proof.
  intros Hf l x b.
  rewrite (foldl_Permutation f Hf (x :: l) (l ++ [x])) by apply Permutation_cons_append.
  by rewrite foldl_app.
Qed.

(** The total is the same for every order in which [Object.entries] may
    enumerate the balances. *)
Theorem totalFiat_order_independent
    (assets : gmap string Asset) (marketData : gmap string MarketData)
    (cryptoBalances : gmap string string) (entries : list (string * string)) :
  entries ≡ₚ map_to_list cryptoBalances →
  decimalPlaces 2 (foldl (totalFiat_step assets marketData) (bn (V_number 0)) entries)
  = totalFiatBalance assets marketData cryptoBalances.
Proof.
  intros Hp. unfold totalFiatBalance. f_equal.
  apply foldl_Permutation; [|exact Hp]. apply totalFiat_step_swap.
Qed.

Lemma totalFiat_sum_insert_step assets marketData (cryptoBalances : gmap string string) id balance :
  cryptoBalances !! id = None →
  totalFiat_sum assets marketData (<[id := balance]> cryptoBalances)
  = totalFiat_step assets marketData (totalFiat_sum assets marketData cryptoBalances)
                   (id, balance).
Proof.
  intros Hid. unfold totalFiat_sum.
  rewrite <- (foldl_snoc_Permutation _ (totalFiat_step_swap assets marketData)).
  apply foldl_Permutation; [apply totalFiat_step_swap|].
  by apply map_to_list_insert.
Qed.

Lemma totalFiat_step_unpriced assets marketData acc id balance :
  unpriced assets marketData id = true →
  totalFiat_step assets marketData acc (id, balance) = acc.
Proof.
  unfold unpriced, totalFiat_step.
  destruct (price <$> marketData !! id), (asset_precision <$> assets !! id);
    try reflexivity.
  by intros ->.
Qed.

Lemma totalFiat_sum_delete_unpriced assets marketData (cryptoBalances : gmap string string) id :
  unpriced assets marketData id = true →
  totalFiat_sum assets marketData cryptoBalances
  = totalFiat_sum assets marketData (delete id cryptoBalances).
Proof.
  intros Hu. destruct (cryptoBalances !! id) as [old|] eqn:Hid.
  - rewrite <- (insert_delete_id cryptoBalances id old Hid) at 1.
    rewrite totalFiat_sum_insert_step by apply lookup_delete_eq.
    by apply totalFiat_step_unpriced.
  - by rewrite delete_id.
Qed.

(** An asset that trips the guard [!price || !precision] (no price, the
    empty price, no precision, precision 0) has no part in the total:
    holding it, with whatever balance, or not holding it gives the same
    total, and its own fiat balance is ['0']. *)
Theorem totalFiatBalance_unpriced
    (assets : gmap string Asset) (marketData : gmap string MarketData)
    (cryptoBalances : gmap string string) (id balance : string) :
  unpriced assets marketData id = true →
  totalFiatBalance assets marketData (<[id := balance]> cryptoBalances)
  = totalFiatBalance assets marketData (delete id cryptoBalances)
  ∧ totalFiatBalance assets marketData cryptoBalances
    = totalFiatBalance assets marketData (delete id cryptoBalances)
  ∧ assetFiatBalance assets marketData cryptoBalances id = "0".
Proof.
  intros Hu.
  assert (E : ∀ m, totalFiatBalance assets marketData m
                   = decimalPlaces 2 (totalFiat_sum assets marketData m)) by reflexivity.
  split; [|split].
  - rewrite !E, (totalFiat_sum_delete_unpriced _ _ (<[id:=balance]> cryptoBalances) id Hu).
    by rewrite delete_insert_eq.
  - by rewrite !E, <- totalFiat_sum_delete_unpriced.
  - revert Hu. unfold unpriced, assetFiatBalance.
    destruct (price <$> marketData !! id), (asset_precision <$> assets !! id);
      try reflexivity.
    by intros ->.
Qed.

(** The balance of a Bitcoin account does not depend on the order of its
    addresses. *)
Theorem totalSats_order_independent (addrs1 addrs2 : list Address) :
  addrs1 ≡ₚ addrs2 → totalSats addrs1 = totalSats addrs2.
Proof.
  intros Hp. unfold totalSats. apply foldl_Permutation; [|exact Hp].
  intros b x y. apply plus_swap.
Qed.

(** ** [selectPortfolioAssets] *)

Lemma portfolioAssets_snoc assets ids cur :
  portfolioAssets assets (ids ++ [cur]) = <[cur := assets !! cur]> (portfolioAssets assets ids).
Proof. unfold portfolioAssets. by rewrite foldl_app. Qed.

(** The object [selectPortfolioAssets] builds has exactly the identifiers of
    [ids] as keys, and the value under a key is whatever the asset slice
    has for it, [undefined] included. *)
Theorem portfolioAssets_lookup (assets : gmap string Asset) (ids : list string) (id : string) :
  portfolioAssets assets ids !! id
  = if decide (id ∈ ids) then Some (assets !! id) else None.
Proof.
  induction ids as [|cur ids IH] using rev_ind.
  - rewrite decide_False by apply not_elem_of_nil. apply lookup_empty.
  - rewrite portfolioAssets_snoc, lookup_insert.
    destruct (decide (cur = id)) as [->|Hne].
    + rewrite decide_True; [reflexivity|]. apply elem_of_app. right. by left.
    + rewrite IH. destruct (decide (id ∈ ids)) as [Hin|Hin].
      * rewrite decide_True; [reflexivity|]. apply elem_of_app. by left.
      * rewrite decide_False; [reflexivity|].
        intros [H|H%list_elem_of_singleton]%elem_of_app; [done|]. by subst.
Qed.

Lemma portfolioAssets_dom assets ids :
  dom (portfolioAssets assets ids) = (list_to_set ids : gset string).
Proof.
  apply set_eq. intros id.
  rewrite elem_of_dom, portfolioAssets_lookup, elem_of_list_to_set.
  destruct (decide (id ∈ ids)); split; try done.
Qed.

Lemma balance_ids_dom toCAIP19 args :
  dom (PortfolioBalances.byId (balances (accountsToPortfolio toCAIP19 args)))
  = (list_to_set (PortfolioBalances.ids (balances (accountsToPortfolio toCAIP19 args)))
     : gset string).
Proof.
  unfold accountsToPortfolio. rewrite fold_balances_ids, fold_balances_byId.
  cbn [initialState balances PortfolioBalances.ids PortfolioBalances.byId app].
  rewrite dom_insert_all, dom_empty_L. by rewrite (left_id_L ∅ (∪)).
Qed.

(** On a portfolio made by [accountsToPortfolio], the keys of
    [selectPortfolioAssets] are the keys of the balance index, and an asset
    that is held but unknown to the asset slice is there with the value
    [undefined]. *)
Theorem selectPortfolioAssets_of_portfolio
    (toCAIP19 : ToCAIP19Args → string) (assets : gmap string Asset)
    (args : list (string * Account)) :
  let state := {| state_assets := assets;
                  state_portfolio := accountsToPortfolio toCAIP19 args |} in
  dom (selectPortfolioAssets state_assets state) = dom (selectPortfolioCryptoBalances state)
  ∧ ∀ id, is_Some (selectPortfolioCryptoBalanceById state id) →
          selectPortfolioAssets state_assets state !! id = Some (assets !! id).
Proof.
  intros state.
  unfold selectPortfolioAssets, selectPortfolioAssetIds, selectPortfolioCryptoBalanceById,
    selectPortfolioCryptoBalances.
  cbn [state_assets state_portfolio state].
  split.
  - by rewrite portfolioAssets_dom, balance_ids_dom.
  - intros id Hid. apply elem_of_dom in Hid.
    rewrite balance_ids_dom, elem_of_list_to_set in Hid.
    by rewrite portfolioAssets_lookup, decide_True.
Qed.

(** ** A run of the endpoint *)

Section getAccounts_facts.

Variable toCAIP19 : ToCAIP19Args → CAIP19.
Variable toCAIP2 : ChainTypes → NetworkTypes → CAIP2.
Variable toCAIP10 : CAIP2 → string → CAIP10.
Variable settle : CAIP2 * string → PromiseSettledResult.

Lemma queryFn_run pubkeys w :
  queryFn toCAIP2 toCAIP10 settle pubkeys w
  = (QueryData (foldl (store_value toCAIP2 toCAIP10) []
                      (omap fulfilled_value (settle <$> pubkeys))),
     {| started := started w ++ pubkeys;
        console := console w
                   ++ ((λ r, "portfolioApi: " +:+ r) <$> omap rejected_reason (settle <$> pubkeys)) |}).
Proof.
  unfold queryFn. destruct pubkeys as [|e l].
  - destruct w. unfold ret. cbn. by rewrite !app_nil_r.
  - unfold bind. rewrite mapM_getAccount, reduceM_maybeAccounts. reflexivity.
Qed.

Lemma getAccounts_run pubkeys state w :
  getAccounts toCAIP19 toCAIP2 toCAIP10 settle pubkeys state w
  = (accountsToPortfolio toCAIP19
       (foldl (store_value toCAIP2 toCAIP10) [] (omap fulfilled_value (settle <$> pubkeys))),
     (queryFn toCAIP2 toCAIP10 settle pubkeys w).2).
Proof. unfold getAccounts, bind, ret. by rewrite queryFn_run. Qed.

(** A run of the endpoint stores the portfolio of the fulfilled requests
    whatever the portfolio before was: nothing of the old portfolio
    survives.  The accounts of the new one are the composite identifiers of
    the fulfilled requests, each once. *)
Theorem getAccounts_replaces_portfolio
    (pubkeys : list (string * string)) (state state' : Portfolio) (w : World) :
  let stored := (getAccounts toCAIP19 toCAIP2 toCAIP10 settle pubkeys state w).1 in
  let values := omap fulfilled_value (settle <$> pubkeys) in
  stored = (getAccounts toCAIP19 toCAIP2 toCAIP10 settle pubkeys state' w).1
  ∧ NoDup (PortfolioAccounts.ids (accounts stored))
  ∧ ∀ id, id ∈ PortfolioAccounts.ids (accounts stored)
          ↔ ∃ value, value ∈ values ∧ accountId toCAIP2 toCAIP10 value = id.
Proof.
  intros stored values. subst stored. rewrite !getAccounts_run. cbn [fst].
  fold values. split; [reflexivity|].
  unfold accountsToPortfolio. rewrite fold_accounts_ids.
  cbn [initialState accounts PortfolioAccounts.ids app].
  split.
  - apply fold_object_set_NoDup. constructor.
  - intros id. rewrite fold_object_set_keys. split; [|by right].
    intros [H|H]; [|done]. by apply elem_of_nil in H.
Qed.

(** When no request is fulfilled, among others when there is no request
    at all, the stored portfolio becomes the empty one, with one line on
    the console per request. *)
Theorem getAccounts_all_rejected
    (pubkeys : list (string * string)) (state : Portfolio) (w : World) :
  Forall (λ entry, fulfilled_value (settle entry) = None) pubkeys →
  (getAccounts toCAIP19 toCAIP2 toCAIP10 settle pubkeys state w).1 = initialState
  ∧ length (console (getAccounts toCAIP19 toCAIP2 toCAIP10 settle pubkeys state w).2)
    = length (console w) + length pubkeys.
Proof.
  intros Hall. rewrite getAccounts_run, queryFn_run. cbn [fst snd console].
  assert (omap fulfilled_value (settle <$> pubkeys) = []
          ∧ length (omap rejected_reason (settle <$> pubkeys)) = length pubkeys) as [-> Hlen].
  { induction Hall as [|e l He _ [IH1 IH2]]; [done|].
    cbn [fmap list_fmap omap list_omap]. rewrite He, IH1.
    destruct (settle e) as [v|r]; [discriminate|]. cbn. by rewrite IH2. }
  split; [reflexivity|]. by rewrite length_app, length_fmap, Hlen.
Qed.

End getAccounts_facts.

(** ** The further properties at sample inputs *)

Lemma asset_lists_total_witness :
  NoDup (PortfolioAccounts.ids (accounts (accountsToPortfolio toCAIP19_model sample_args)))
  ∧ sum_list
      ((λ k, length
               (default []
                  (PortfolioAccounts.byId (accounts (accountsToPortfolio toCAIP19_model sample_args))
                     !! k)))
         <$> PortfolioAccounts.ids (accounts (accountsToPortfolio toCAIP19_model sample_args)))
    = length (PortfolioBalances.ids (balances (accountsToPortfolio toCAIP19_model sample_args))).
Proof. exact (accountsToPortfolio_asset_lists_total toCAIP19_model sample_args sample_args_wf). Defined.

Lemma order_independent_witness :
  decimalPlaces 2 (foldl (totalFiat_step sample_assets sample_marketData) (bn (V_number 0))
                         (reverse (map_to_list sample_balances)))
  = totalFiatBalance sample_assets sample_marketData sample_balances.
Proof.
  apply (totalFiat_order_independent sample_assets sample_marketData sample_balances).
  apply reverse_Permutation.
Defined.

Lemma unpriced_witness :
  totalFiatBalance sample_assets sample_marketData (<["nft" := "1000"]> sample_balances)
  = totalFiatBalance sample_assets sample_marketData (delete "nft" sample_balances)
  ∧ totalFiatBalance sample_assets sample_marketData sample_balances
    = totalFiatBalance sample_assets sample_marketData (delete "nft" sample_balances)
  ∧ assetFiatBalance sample_assets sample_marketData sample_balances "nft" = "0".
Proof.
  apply (totalFiatBalance_unpriced sample_assets sample_marketData sample_balances "nft" "1000").
  vm_compute. reflexivity.
Defined.

Lemma totalSats_order_witness :
  totalSats [ {| address_pubkey := "bc1a"; address_balance := Some "100" |};
              {| address_pubkey := "bc1b"; address_balance := Some "2.5" |} ]
  = totalSats [ {| address_pubkey := "bc1b"; address_balance := Some "2.5" |};
                {| address_pubkey := "bc1a"; address_balance := Some "100" |} ].
Proof. apply totalSats_order_independent. apply perm_swap. Defined.

Lemma all_rejected_witness :
  (getAccounts toCAIP19_model (λ c n, ChainTypes_value c +:+ ":" +:+ n)
               (λ caip2 account, caip2 +:+ ":" +:+ account)
               (λ _, rejected "timeout")
               [("eip155:1", "0xF00"); ("bip122:1", "xpub1")]
               (accountsToPortfolio toCAIP19_model sample_args)
               {| started := []; console := [] |}).1 = initialState
  ∧ length (console
              (getAccounts toCAIP19_model (λ c n, ChainTypes_value c +:+ ":" +:+ n)
                 (λ caip2 account, caip2 +:+ ":" +:+ account)
                 (λ _, rejected "timeout")
                 [("eip155:1", "0xF00"); ("bip122:1", "xpub1")]
                 (accountsToPortfolio toCAIP19_model sample_args)
                 {| started := []; console := [] |}).2)
    = length (@nil string) + length [("eip155:1", "0xF00"); ("bip122:1", "xpub1")].
Proof.
  apply (getAccounts_all_rejected toCAIP19_model (λ c n, ChainTypes_value c +:+ ":" +:+ n)
           (λ caip2 account, caip2 +:+ ":" +:+ account) (λ _, rejected "timeout")
           [("eip155:1", "0xF00"); ("bip122:1", "xpub1")]
           (accountsToPortfolio toCAIP19_model sample_args)
           {| started := []; console := [] |}).
  repeat constructor.
Defined.

Lemma totalFiatBalance_sound_witness :
  ∃ d, totalFiatBalance {[ "btc" := {| asset_caip19 := "btc"; asset_precision := 8 |} ]}
                        sample_marketData sample_balances = Fin d
       ∧ (value d * 100
          == inject_Z (Qround_cents
                         (spec_totalFiat
                            {[ "btc" := {| asset_caip19 := "btc"; asset_precision := 8 |} ]}
                            sample_marketData sample_balances)))%Q.
Proof.
  apply (totalFiatBalance_sound
           {[ "btc" := {| asset_caip19 := "btc"; asset_precision := 8 |} ]}
           sample_marketData sample_balances).
  intros id bal _ a m Ha Hm.
  apply lookup_singleton_Some in Ha as [<- <-].
  unfold sample_marketData in Hm. rewrite lookup_insert_eq in Hm. injection Hm as <-.
  split; [discriminate|reflexivity].
Defined.
